(** * Expression ASTs of the Swift front end: lib/AST/Expr.cpp

    A shallow embedding of the functions that [lib/AST/Expr.cpp] defines,
    and the properties the specification states about them.

    Conventions of the embedding.
    - AST nodes are arena allocated and immutable once built; they are
      modelled as values of the inductive type [Expr], one constructor per
      concrete class (classes that share a C++ base with a common payload,
      such as [ApplyExpr] and [ImplicitConversionExpr], share a constructor
      and carry a kind tag).
    - [Type] is a nullable handle in the source ([getType().isNull()]); it
      is modelled as [option TypeBase].
    - An [assert], a failed [cast<>], a dereference of a null handle and
      [llvm_unreachable] stop the compiler.  Functions that contain one
      return a [Result], whose [Abort] case records which of them fired. *)

From Stdlib Require Import ZArith NArith List String Ascii Bool Lia Arith.
From Stdlib Require Import DecimalString.
From Stdlib Require DecimalFacts DecimalN Finite.
From Stdlib Require HexadecimalString HexadecimalFacts HexadecimalN.
From Equations Require Import Equations.
Import ListNotations.

Local Open Scope string_scope.
Local Open Scope list_scope.

(** ** Fatal conditions and the error monad *)

Inductive Fatal : Type :=
| AssertionFailure (msg : string)   (* assert(cond && msg) *)
| BadCast (cls : string)            (* cast<cls>(p) / castTo<cls>() on another class *)
| NullDereference                   (* p->m() with p null *)
| Unreachable (msg : string).       (* llvm_unreachable(msg) *)

Inductive Result (A : Type) : Type :=
| Ok (a : A)
| Abort (f : Fatal).
Arguments Ok {A} a.
Arguments Abort {A} f.

Definition bind {A B : Type} (m : Result A) (k : A -> Result B) : Result B :=
  match m with
  | Ok a => k a
  | Abort f => Abort f
  end.

Notation "x <- m ;; k" := (bind m (fun x => k))
  (at level 61, m at next level, right associativity).
Notation "m ;;; k" := (bind m (fun _ => k))
  (at level 61, right associativity).

Definition assert (cond : bool) (msg : string) : Result unit :=
  if cond then Ok tt else Abort (AssertionFailure msg).

(** [p->...] on a nullable handle. *)
Definition deref {A : Type} (p : option A) : Result A :=
  match p with
  | Some a => Ok a
  | None => Abort NullDereference
  end.

(** ** Source locations *)

(** A [SourceLoc] wraps a pointer into the source buffer; the default
    constructed location holds the null pointer and is the invalid one. *)
Record SourceLoc : Type := mkLoc { Value : N }.

Definition SourceLoc_default : SourceLoc := mkLoc 0.
Definition isValid (L : SourceLoc) : bool := negb (Value L =? 0)%N.

Record SourceRange : Type := mkRange { Start : SourceLoc; End : SourceLoc }.

(** ** Types *)

Definition Identifier := string.

Inductive TypeBase : Type :=
| BuiltinIntegerType (BitWidth : N)
| BuiltinFloatType (BitWidth : N)
| MetaTypeType (TheType : Identifier)
| LValueType (ObjectTy : TypeBase)
| FunctionType (Input Result_ : TypeBase)
| UnstructuredDependentType
| NominalType (Name : Identifier).

(** [Type]: a possibly null pointer to a [TypeBase]. *)
Definition Type_ := option TypeBase.

Definition is_MetaTypeType (T : TypeBase) : bool :=
  match T with MetaTypeType _ => true | _ => false end.

Definition isDependentType (T : TypeBase) : bool :=
  match T with UnstructuredDependentType => true | _ => false end.

(** [UnstructuredDependentType::get(C)]: the singleton of the context. *)
Definition UnstructuredDependentType_get : Type_ := Some UnstructuredDependentType.

(** ** Declarations

    [Decl.h] and [Decl.cpp] are outside this file.  Expr.cpp treats a
    [ValueDecl*] as an opaque handle of which it asks: its dynamic class
    ([isa<FuncDecl>], [cast<VarDecl>], [SubscriptDecl]), its name, its
    reference type, whether it is an instance member and, for a subscript
    declaration, its element type.  A declaration is the record of these
    observations. *)

Inductive ValueDeclKind : Type :=
| FuncDeclKind
| VarDeclKind
| SubscriptDeclKind
| OtherValueDeclKind.   (* type aliases, oneof elements, ... *)

Record ValueDecl : Type := mkValueDecl {
  getKind : ValueDeclKind;
  getName : Identifier;
  getTypeOfReference : Type_;
  isInstanceMember : bool;
  getElementType : Type_
}.

Definition isa_FuncDecl (D : ValueDecl) : bool :=
  match getKind D with FuncDeclKind => true | _ => false end.

Definition isa_VarDecl (D : ValueDecl) : bool :=
  match getKind D with VarDeclKind => true | _ => false end.

(** [cast<VarDecl>(D)]: asserts the dynamic class. *)
Definition cast_VarDecl (D : ValueDecl) : Result ValueDecl :=
  if isa_VarDecl D then Ok D else Abort (BadCast "VarDecl").

(** ** Expression nodes *)

Inductive ImplicitConversionKind : Type :=
| TupleShuffle (ElementMapping : list Z)
| LookThroughOneof
| ParameterRename
| ScalarToTuple
| Load
| Materialize
| Requalify.

Inductive ApplyKind : Type :=
| Call
| Unary
| Binary
| ConstructorCall
| DotSyntaxCall (DotLoc : SourceLoc).

Inductive TupleElementKind : Type :=
| SyntacticTupleElement
| ImplicitThisTupleElement.

Inductive ClosureKind : Type :=
| ExplicitClosure
| ImplicitClosure.

(** A function body is a statement; Expr.cpp only asks for its end. *)
Record BraceStmt : Type := mkBraceStmt { Body_getEndLoc : SourceLoc }.

(** Every node carries the header field [Ty] last. *)
#[warnings="-register-all"]
Inductive Expr : Type :=
| ErrorExpr (Ty : Type_)
| IntegerLiteralExpr (Val : string) (Loc : SourceLoc) (Ty : Type_)
| FloatLiteralExpr (Val : string) (Loc : SourceLoc) (Ty : Type_)
| CharacterLiteralExpr (Val : N) (Loc : SourceLoc) (Ty : Type_)
| StringLiteralExpr (Val : string) (Loc : SourceLoc) (Ty : Type_)
| InterpolatedStringLiteralExpr (Loc : SourceLoc) (Segments : list Expr) (Ty : Type_)
| DeclRefExpr (D : ValueDecl) (Loc : SourceLoc) (Ty : Type_)
| OverloadedDeclRefExpr (Decls : list ValueDecl) (Loc : SourceLoc) (Ty : Type_)
| OverloadedMemberRefExpr (Base : Expr) (DotLoc : SourceLoc)
    (Decls : list ValueDecl) (MemberLoc : SourceLoc) (Ty : Type_)
| UnresolvedDeclRefExpr (Name : Identifier) (Loc : SourceLoc) (Ty : Type_)
| MemberRefExpr (Base : Expr) (Value : ValueDecl) (DotLoc NameLoc : SourceLoc) (Ty : Type_)
| UnresolvedMemberExpr (Name : Identifier) (Loc : SourceLoc) (Ty : Type_)
| ParenExpr (LParenLoc : SourceLoc) (SubExpr : Expr) (RParenLoc : SourceLoc) (Ty : Type_)
| TupleExpr (LParenLoc : SourceLoc) (SubExprs : list (option Expr))
    (RParenLoc : SourceLoc) (Ty : Type_)
| SubscriptExpr (D : option ValueDecl) (Brackets : SourceRange)
    (Base Index : Expr) (Ty : Type_)
| OverloadedSubscriptExpr (Base : Expr) (Decls : list ValueDecl)
    (LBracketLoc : SourceLoc) (Index : Expr) (RBracketLoc : SourceLoc) (Ty : Type_)
| UnresolvedDotExpr (Base : option Expr) (Name : Identifier) (Loc : SourceLoc) (Ty : Type_)
| ModuleExpr (Loc : SourceLoc) (Ty : Type_)
| TupleElementExpr (K : TupleElementKind) (Base : Expr) (FieldNo : N) (Ty : Type_)
| ImplicitConversionExpr (K : ImplicitConversionKind) (SubExpr : Expr) (Ty : Type_)
| AddressOfExpr (Loc : SourceLoc) (SubExpr : Expr) (Ty : Type_)
| SequenceExpr (Elements : list Expr) (Ty : Type_)
| FuncExpr (FuncLoc : SourceLoc) (NumParams : N) (Body : BraceStmt) (Ty : Type_)
| ClosureExpr (K : ClosureKind) (Body : Expr) (Ty : Type_)
| NewArrayExpr (NewLoc : SourceLoc) (ElementTy : Type_) (Bounds : list (option Expr)) (Ty : Type_)
| ApplyExpr (K : ApplyKind) (Fn Arg : Expr) (Ty : Type_)
| DotSyntaxBaseIgnoredExpr (LHS : Expr) (DotLoc : SourceLoc) (RHS : Expr) (Ty : Type_)
| CoerceExpr (LHS RHS : Expr) (Ty : Type_).

(** [Expr::getType()]. *)
Definition getType (E : Expr) : Type_ :=
  match E with
  | ErrorExpr Ty
  | IntegerLiteralExpr _ _ Ty
  | FloatLiteralExpr _ _ Ty
  | CharacterLiteralExpr _ _ Ty
  | StringLiteralExpr _ _ Ty
  | InterpolatedStringLiteralExpr _ _ Ty
  | DeclRefExpr _ _ Ty
  | OverloadedDeclRefExpr _ _ Ty
  | OverloadedMemberRefExpr _ _ _ _ Ty
  | UnresolvedDeclRefExpr _ _ Ty
  | MemberRefExpr _ _ _ _ Ty
  | UnresolvedMemberExpr _ _ Ty
  | ParenExpr _ _ _ Ty
  | TupleExpr _ _ _ Ty
  | SubscriptExpr _ _ _ _ Ty
  | OverloadedSubscriptExpr _ _ _ _ _ Ty
  | UnresolvedDotExpr _ _ _ Ty
  | ModuleExpr _ Ty
  | TupleElementExpr _ _ _ Ty
  | ImplicitConversionExpr _ _ Ty
  | AddressOfExpr _ _ Ty
  | SequenceExpr _ Ty
  | FuncExpr _ _ _ Ty
  | ClosureExpr _ _ Ty
  | NewArrayExpr _ _ _ Ty
  | ApplyExpr _ _ _ Ty
  | DotSyntaxBaseIgnoredExpr _ _ _ Ty
  | CoerceExpr _ _ Ty => Ty
  end.

(** [isa<ParenExpr>], [isa<DeclRefExpr>]. *)
Definition isa_ParenExpr (E : Expr) : bool :=
  match E with ParenExpr _ _ _ _ => true | _ => false end.

Definition isa_DeclRefExpr (E : Expr) : bool :=
  match E with DeclRefExpr _ _ _ => true | _ => false end.

(** The three overload-set shapes the collapse constructors can build. *)
Definition isOverloadSet (E : Expr) : bool :=
  match E with
  | OverloadedDeclRefExpr _ _ _
  | OverloadedMemberRefExpr _ _ _ _ _
  | OverloadedSubscriptExpr _ _ _ _ _ _ => true
  | _ => false
  end.

(** [getDecls()] of an overload-set node. *)
Definition getDecls (E : Expr) : list ValueDecl :=
  match E with
  | OverloadedDeclRefExpr Decls _ _
  | OverloadedMemberRefExpr _ _ Decls _ _
  | OverloadedSubscriptExpr _ Decls _ _ _ _ => Decls
  | _ => []
  end.

(** ** Structural queries (Expr.cpp, lines 74-97) *)

Fixpoint getSemanticsProvidingExpr (this : Expr) : Expr :=
  match this with
  | ParenExpr _ SubExpr _ _ => getSemanticsProvidingExpr SubExpr
  | _ => this
  end.

Definition getValueProvidingExpr (this : Expr) : Expr :=
  (* For now, this is totally equivalent to the above. *)
  getSemanticsProvidingExpr this.

Section Implicit.
(** The class hierarchy comes from [ExprNodes.def], which is not among
    the sources.  The seven conversions of [ImplicitConversionKind] are
    adjustments that only semantic analysis inserts; for [AddressOfExpr],
    which the specification lists with them, whether the class derives
    from [ImplicitConversionExpr] is a parameter. *)
Variable AddressOf_is_ImplicitConversion : bool.

(** [dyn_cast<ImplicitConversionExpr>(this)], giving [getSubExpr()]. *)
Definition dyn_cast_ImplicitConversionExpr (this : Expr) : option Expr :=
  match this with
  | ImplicitConversionExpr _ SubExpr _ => Some SubExpr
  | AddressOfExpr _ SubExpr _ =>
      if AddressOf_is_ImplicitConversion then Some SubExpr else None
  | _ => None
  end.

Fixpoint isImplicit (this : Expr) : bool :=
  match this with
  | DeclRefExpr _ Loc _ => negb (isValid Loc)
  | ImplicitConversionExpr _ SubExpr _ => isImplicit SubExpr
  | AddressOfExpr _ SubExpr _ =>
      if AddressOf_is_ImplicitConversion then isImplicit SubExpr else false
  | _ => false
  end.
End Implicit.

(** A chain of [n] parenthesizations around [e]; the locations and the
    types of the wrappers are those the caller supplies per level. *)
Fixpoint parens (ws : list (SourceLoc * SourceLoc * Type_)) (e : Expr) : Expr :=
  match ws with
  | [] => e
  | (L, R, Ty) :: ws' => ParenExpr L (parens ws' e) R Ty
  end.

(** ** Constructors of node classes

    [MemberRefExpr::MemberRefExpr] (line 126) and
    [SubscriptExpr::SubscriptExpr] (line 239) are defined in Expr.cpp. *)

Definition new_MemberRefExpr (Base : Expr) (DotLoc : SourceLoc)
    (Value : ValueDecl) (NameLoc : SourceLoc) : Expr :=
  MemberRefExpr Base Value DotLoc NameLoc (getTypeOfReference Value).

Definition new_SubscriptExpr (Base : Expr) (LBracketLoc : SourceLoc) (Index : Expr)
    (RBracketLoc : SourceLoc) (D : option ValueDecl) : Expr :=
  SubscriptExpr D (mkRange LBracketLoc RBracketLoc) Base Index
    (match D with Some d => getElementType d | None => None end).

(** What Expr.cpp takes from the class declarations in [Expr.h], which is
    not among the sources: the type that the inline constructors of
    [DotSyntaxCallExpr] and [DotSyntaxBaseIgnoredExpr] give their node when
    called with (callee, dot location, receiver) resp. (receiver, dot
    location, reference), and the default value of the last parameter [D]
    of the [SubscriptExpr] constructor.  They are parameters of the model. *)
Record ExprHeader : Type := mkExprHeader {
  DotSyntaxCallExpr_Ty : Expr -> SourceLoc -> Expr -> Type_;
  DotSyntaxBaseIgnoredExpr_Ty : Expr -> SourceLoc -> Expr -> Type_;
  SubscriptExpr_default_D : option ValueDecl
}.

(** Modelled from the spec: [ASTContext::AllocateCopy] (ASTContext.h, not
    among the sources) copies the candidate list into the arena, element by
    element and preserving order. *)
Fixpoint AllocateCopy {A : Type} (Arr : list A) : list A :=
  match Arr with
  | [] => []
  | x :: Arr' => x :: AllocateCopy Arr'
  end.

(** ** Overload-collapse constructors (Expr.cpp, lines 162-208, 244-260) *)

Section Collapse.
Variable Hdr : ExprHeader.

Definition new_DotSyntaxCallExpr (Fn : Expr) (DotLoc : SourceLoc) (Base : Expr) : Expr :=
  ApplyExpr (DotSyntaxCall DotLoc) Fn Base (DotSyntaxCallExpr_Ty Hdr Fn DotLoc Base).

Definition new_DotSyntaxBaseIgnoredExpr (Base : Expr) (DotLoc : SourceLoc) (Fn : Expr) : Expr :=
  DotSyntaxBaseIgnoredExpr Base DotLoc Fn (DotSyntaxBaseIgnoredExpr_Ty Hdr Base DotLoc Fn).

Definition OverloadedDeclRefExpr_createWithCopy
    (Decls : list ValueDecl) (Loc : SourceLoc) : Result Expr :=
  assert (negb (List.length Decls =? 0)%nat)
         "Cannot create a decl ref with an empty list of decls" ;;;
  Decls_0 <- deref (nth_error Decls 0) ;;
  if (List.length Decls =? 1)%nat then
    Ok (DeclRefExpr Decls_0 Loc (getTypeOfReference Decls_0))
  else
    (* Otherwise, copy the overload set into ASTContext memory and
       return the overload set. *)
    Ok (OverloadedDeclRefExpr (AllocateCopy Decls) Loc UnstructuredDependentType_get).

Definition OverloadedMemberRefExpr_createWithCopy
    (Base : Expr) (DotLoc : SourceLoc) (Decls : list ValueDecl)
    (MemberLoc : SourceLoc) : Result Expr :=
  assert (negb (List.length Decls =? 0)%nat)
         "Cannot create an overloaded member ref with no decls" ;;;
  Decls_0 <- deref (nth_error Decls 0) ;;
  if (List.length Decls =? 1)%nat then
    let Fn := DeclRefExpr Decls_0 MemberLoc (getTypeOfReference Decls_0) in
    (* Decls[0]->isInstanceMember() && !Base->getType()->is<MetaTypeType>(),
       the right operand evaluated only when the left one holds *)
    cond <- (if isInstanceMember Decls_0 then
               BaseTy <- deref (getType Base) ;;
               Ok (negb (is_MetaTypeType BaseTy))
             else Ok false) ;;
    if (cond : bool) then
      if isa_FuncDecl Decls_0 then
        Ok (new_DotSyntaxCallExpr Fn DotLoc Base)
      else
        Var <- cast_VarDecl Decls_0 ;;
        Ok (new_MemberRefExpr Base DotLoc Var MemberLoc)
    else
      Ok (new_DotSyntaxBaseIgnoredExpr Base DotLoc Fn)
  else
    (* Otherwise, copy the overload set into the ASTContext's memory. *)
    Ok (OverloadedMemberRefExpr Base DotLoc (AllocateCopy Decls) MemberLoc
          UnstructuredDependentType_get).

Definition OverloadedSubscriptExpr_createWithCopy
    (Base : Expr) (Decls : list ValueDecl) (LBracketLoc : SourceLoc)
    (Index : Expr) (RBracketLoc : SourceLoc) : Result Expr :=
  assert (negb (List.length Decls =? 0)%nat)
         "Cannot create an overloaded member ref with no decls" ;;;
  _ <- deref (nth_error Decls 0) ;;
  if (List.length Decls =? 1)%nat then
    (* four arguments: [D] takes its default *)
    Ok (new_SubscriptExpr Base LBracketLoc Index RBracketLoc
          (SubscriptExpr_default_D Hdr))
  else
    (* Otherwise, copy the overload set into the ASTContext's memory. *)
    Ok (OverloadedSubscriptExpr Base (AllocateCopy Decls) LBracketLoc Index
          RBracketLoc UnstructuredDependentType_get).
End Collapse.

(** ** TupleExpr::getSourceRange (Expr.cpp, lines 228-237) *)

Section TupleRange.
(** [Expr::getStartLoc] and [Expr::getEndLoc] of a child go through the
    per-class [getSourceRange] functions, all but two of which are inline
    in Expr.h; they are parameters here, and may themselves stop. *)
Variables getStartLoc getEndLoc : Expr -> Result SourceLoc.

(** [getElement(i)]: an [ArrayRef] access, bounds asserted. *)
Definition getElement (SubExprs : list (option Expr)) (i : nat) : Result (option Expr) :=
  match nth_error SubExprs i with
  | Some p => Ok p
  | None => Abort (AssertionFailure "Invalid index!")
  end.

Definition TupleExpr_getSourceRange (LParenLoc : SourceLoc)
    (SubExprs : list (option Expr)) (RParenLoc : SourceLoc) : Result SourceRange :=
  if isValid LParenLoc then
    assert (isValid RParenLoc) "Mismatched parens?" ;;;
    Ok (mkRange LParenLoc RParenLoc)
  else
    assert (List.length SubExprs =? 2)%nat "Unexpected tuple expr" ;;;
    p0 <- getElement SubExprs 0 ;;
    E0 <- deref p0 ;;
    Start_ <- getStartLoc E0 ;;
    p1 <- getElement SubExprs 1 ;;
    E1 <- deref p1 ;;
    End_ <- getEndLoc E1 ;;
    Ok (mkRange Start_ End_).
End TupleRange.

(** ** IntegerLiteralExpr::getValue (Expr.cpp, lines 103-113) *)

(** Modelled from the spec: [llvm::APInt] is LLVM's fixed-width integer, not
    part of the sources: a bit width and a value kept below two to that
    width, every operation wrapping around. *)
Record APInt : Type := mkAPInt { getBitWidth : N; getZExtValue : N }.

(** Modelled from the spec: [APInt(numBits, val)] and the operations of
    [llvm::APInt] used below (LLVM, not part of the sources), each reducing
    its result modulo two to the bit width. *)
Definition APInt_get (numBits val : N) : APInt :=
  mkAPInt numBits (val mod 2 ^ numBits).

Definition APInt_zext (width : N) (a : APInt) : APInt :=
  mkAPInt width (getZExtValue a).

Definition APInt_trunc (width : N) (a : APInt) : APInt :=
  APInt_get width (getZExtValue a).

Definition APInt_zextOrTrunc (width : N) (a : APInt) : APInt :=
  if (getBitWidth a <? width)%N then APInt_zext width a
  else if (width <? getBitWidth a)%N then APInt_trunc width a
  else a.

Definition APInt_shl (a : APInt) (n : N) : APInt :=
  APInt_get (getBitWidth a) (N.shiftl (getZExtValue a) n).

Definition APInt_or (a : APInt) (v : N) : APInt :=
  APInt_get (getBitWidth a) (N.lor (getZExtValue a) v).

Definition APInt_mul (a : APInt) (v : N) : APInt :=
  APInt_get (getBitWidth a) (getZExtValue a * v).

Definition APInt_add (a : APInt) (v : N) : APInt :=
  APInt_get (getBitWidth a) (getZExtValue a + v).

(** [Str.substr(n)]. *)
Fixpoint substr (n : nat) (Str : string) : string :=
  match n, Str with
  | O, _ => Str
  | S n', String _ Str' => substr n' Str'
  | S _, EmptyString => EmptyString
  end.

(** Modelled from the spec: the radix inference of
    [llvm::StringRef::getAsInteger] (LLVM, not part of the sources) when it
    is called with radix 0: the radix is inferred from the spelling prefix,
    "0x" sixteen, "0b" two, "0o" and a leading "0" eight, ten otherwise. *)
Definition GetAutoSenseRadix (Str : string) : N * string :=
  if prefix "0x" Str then (16%N, substr 2 Str)
  else if prefix "0b" Str then (2%N, substr 2 Str)
  else if prefix "0o" Str then (8%N, substr 2 Str)
  else if prefix "0" Str then (8%N, Str)
  else (10%N, Str).

(** Modelled from the spec: the value of a digit of
    [llvm::StringRef::getAsInteger] (LLVM, not part of the sources): decimal
    digits, then letters of either case from ten on. *)
Definition CharVal (c : ascii) : option N :=
  let n := N_of_ascii c in
  if ((48 <=? n) && (n <=? 57))%N then Some (n - 48)%N
  else if ((97 <=? n) && (n <=? 122))%N then Some (n - 97 + 10)%N
  else if ((65 <=? n) && (n <=? 90))%N then Some (n - 65 + 10)%N
  else None.

(** Modelled from the spec: the skipping of leading zeroes of
    [llvm::StringRef::getAsInteger] (LLVM, not part of the sources). *)
Fixpoint skipLeadingZeroes (Str : string) : string :=
  match Str with
  | String "0"%char Str' => skipLeadingZeroes Str'
  | _ => Str
  end.

(** Modelled from the spec: the digit loop of
    [llvm::StringRef::getAsInteger] (LLVM, not part of the sources), which
    accumulates the digits in positional notation; [None] is its error
    return, on a character that is not a digit of the radix. *)
Fixpoint parseDigits (Radix Log2Radix : N) (IsPowerOf2Radix : bool)
    (Str : string) (Result_ : APInt) : option APInt :=
  match Str with
  | EmptyString => Some Result_
  | String c Str' =>
      match CharVal c with
      | None => None
      | Some v =>
          if (Radix <=? v)%N then None
          else
            let Result' :=
              if IsPowerOf2Radix then APInt_or (APInt_shl Result_ Log2Radix) v
              else APInt_add (APInt_mul Result_ Radix) v in
            parseDigits Radix Log2Radix IsPowerOf2Radix Str' Result'
      end
  end.

(** Modelled from the spec: [llvm::StringRef::getAsInteger(Radix, APInt&)]
    (LLVM, not part of the sources).  With radix 0 the radix is inferred
    from the spelling prefix; the digits that follow are accumulated in an
    integer at least as wide as the one passed in.  The boolean is the error
    flag of the library: true when the text is not a number in that radix. *)
Definition getAsInteger (Radix : N) (Str : string) (Result_ : APInt) : bool * APInt :=
  let '(Radix, Str) :=
    if (Radix =? 0)%N then GetAutoSenseRadix Str else (Radix, Str) in
  match Str with
  | EmptyString => (true, Result_)
  | _ =>
      let Str := skipLeadingZeroes Str in
      match Str with
      | EmptyString => (false, APInt_get 64 0)
      | _ =>
          let Log2Radix := N.log2_up Radix in
          let IsPowerOf2Radix := (2 ^ Log2Radix =? Radix)%N in
          let BitWidth := (Log2Radix * N.of_nat (String.length Str))%N in
          let BitWidth := N.max BitWidth (getBitWidth Result_) in
          match parseDigits Radix Log2Radix IsPowerOf2Radix Str (APInt_get BitWidth 0) with
          | Some R => (false, R)
          | None => (true, Result_)
          end
      end
  end.

(** [getType()->castTo<BuiltinIntegerType>()->getBitWidth()]. *)
Definition castTo_BuiltinIntegerType (T : TypeBase) : Result N :=
  match T with
  | BuiltinIntegerType BitWidth => Ok BitWidth
  | _ => Abort (BadCast "BuiltinIntegerType")
  end.

(** The method reads the spelling [getText()] and the type [getType()] of
    the literal node and nothing else. *)
Definition IntegerLiteralExpr_getValue (Text : string) (Ty : Type_) : Result APInt :=
  assert (match Ty with None => false | Some _ => true end)
         "Semantic analysis has not completed" ;;;
  T <- deref Ty ;;
  BitWidth <- castTo_BuiltinIntegerType T ;;
  let Value := APInt_get BitWidth 0 in
  let '(Error_, Value) := getAsInteger 0 Text Value in
  assert (negb Error_) "Invalid IntegerLiteral formed" ;;;
  let Value :=
    if negb (getBitWidth Value =? BitWidth)%N
    then APInt_zextOrTrunc BitWidth Value else Value in
  Ok Value.

(** The same on a node; any other class is not an [IntegerLiteralExpr]. *)
Definition getValue (this : Expr) : Result APInt :=
  match this with
  | IntegerLiteralExpr Val _ Ty => IntegerLiteralExpr_getValue Val Ty
  | _ => Abort (BadCast "IntegerLiteralExpr")
  end.

(** ** ExplicitClosureExpr::GenerateVarDecls (Expr.cpp, lines 310-322) *)

(** A [DeclContext*] is kept as the address of the context. *)
Definition DeclContext := N.

(** The anonymous closure arguments are built by the four-argument
    [VarDecl] constructor; the record keeps those four arguments. *)
Record VarDecl : Type := mkVarDecl {
  VarDecl_Loc : SourceLoc;
  VarDecl_Name : Identifier;
  VarDecl_Ty : Type_;
  VarDecl_Context : DeclContext
}.

(** The part of the [ASTContext] the function touches: the table of
    uniqued identifiers. *)
Record ASTContext : Type := mkASTContext { IdentifierTable : list string }.

Definition getIdentifier (Context : ASTContext) (Str : string) : Identifier * ASTContext :=
  if existsb (String.eqb Str) (IdentifierTable Context)
  then (Str, Context)
  else (Str, mkASTContext (Str :: IdentifierTable Context)).

(** [unsigned] is 32 bits wide; [size_t] converts to it modulo 2^32. *)
Definition to_unsigned (n : N) : N := (n mod 2 ^ 32)%N.

(** [Twine(unsigned)]: the decimal rendering. *)
Definition Twine_unsigned (n : N) : string := NilZero.string_of_uint (N.to_uint n).

(** One turn of the loop body. *)
Definition GenerateVarDecls_body (this : DeclContext)
    (Decls : list VarDecl) (Context : ASTContext) : list VarDecl * ASTContext :=
  let NextIdx := to_unsigned (N.of_nat (List.length Decls)) in
  let VarName := ("$" ++ Twine_unsigned NextIdx)%string in
  let '(ident, Context') := getIdentifier Context VarName in
  let VarLoc := SourceLoc_default in
  let var := mkVarDecl VarLoc ident None this in
  (Decls ++ [var], Context').

Definition inspect {A : Type} (a : A) : { b : A | a = b } := exist _ a eq_refl.

(** [while (NumDecls >= Decls.size()) { ... }]: the comparison is done in
    [size_t], where neither operand wraps. *)
Equations? GenerateVarDecls (this : DeclContext) (NumDecls : N)
    (Decls : list VarDecl) (Context : ASTContext) : list VarDecl * ASTContext
    by wf (N.to_nat NumDecls + 1 - List.length Decls)%nat lt :=
  GenerateVarDecls this NumDecls Decls Context
    with inspect (N.of_nat (List.length Decls) <=? NumDecls)%N => {
    | exist _ true _ =>
        GenerateVarDecls this NumDecls
          (fst (GenerateVarDecls_body this Decls Context))
          (snd (GenerateVarDecls_body this Decls Context))
    | exist _ false _ => (Decls, Context) }.
Proof.
  unfold GenerateVarDecls_body.
  destruct (getIdentifier Context _) as [ident Context'].
  cbn [fst]. rewrite length_app. cbn [List.length].
  apply N.leb_le in e. lia.
Qed.

(** ** OverloadSetRefExpr (Expr.cpp, lines 132-160) *)

(** The two subclasses the methods handle; any other node falls through to
    [llvm_unreachable]. *)
Definition OverloadSetRefExpr_getBaseType (this : Expr) : Result Type_ :=
  match this with
  | OverloadedDeclRefExpr _ _ _ => Ok None
  | OverloadedMemberRefExpr Base _ _ _ _ =>
      let BaseTy := getType Base in
      (* Metatype types aren't considered to be base types. *)
      T <- deref BaseTy ;;
      if is_MetaTypeType T then Ok None else Ok BaseTy
  | _ => Abort (Unreachable "Unhandled overloaded set reference expression")
  end.

Definition OverloadSetRefExpr_createFilteredWithCopy (Hdr : ExprHeader)
    (this : Expr) (Decls : list ValueDecl) : Result Expr :=
  match this with
  | OverloadedDeclRefExpr _ Loc _ =>
      OverloadedDeclRefExpr_createWithCopy Decls Loc
  | OverloadedMemberRefExpr Base DotLoc _ MemberLoc _ =>
      OverloadedMemberRefExpr_createWithCopy Hdr Base DotLoc Decls MemberLoc
  | _ => Abort (Unreachable "Unhandled overloaded set reference expression")
  end.

(** ** FuncExpr (Expr.cpp, lines 262-295) *)

(** A [Pattern*] is kept as the address of the pattern. *)
Definition Pattern := N.

(** [buffer[i] = v] on a buffer that has a slot [i]. *)
Fixpoint store {A : Type} (buffer : list A) (i : nat) (v : A) : list A :=
  match buffer, i with
  | [], _ => []
  | _ :: buffer', O => v :: buffer'
  | x :: buffer', S i' => x :: store buffer' i' v
  end.

(** [params[i]]: an [ArrayRef] access, bounds asserted. *)
Definition ArrayRef_index {A : Type} (Arr : list A) (i : nat) : Result A :=
  match nth_error Arr i with
  | Some x => Ok x
  | None => Abort (AssertionFailure "Invalid index!")
  end.

(** [FuncExpr::create].  The node is one arena block: the header, built by
    the constructor from [(funcLoc, nParams, fnType, body)], followed by
    [nParams] slots for the parameter patterns, which the loop
    [for (unsigned i = 0; i != nParams; ++i)] fills one by one.  The result
    is the header and the trailing buffer; a slot not yet written is [None]. *)
Definition FuncExpr_create (funcLoc : SourceLoc) (params : list Pattern)
    (fnType : Type_) (body : BraceStmt) : Result (Expr * list (option Pattern)) :=
  let nParams := to_unsigned (N.of_nat (List.length params)) in
  let buf := repeat (@None Pattern) (N.to_nat nParams) in
  let fn := FuncExpr funcLoc nParams body fnType in
  ParamsBuffer <-
    fold_left
      (fun (acc : Result (list (option Pattern))) (i : nat) =>
         buffer <- acc ;;
         p <- ArrayRef_index params i ;;
         Ok (store buffer i (Some p)))
      (seq 0 (N.to_nat nParams)) (Ok buf) ;;
  Ok (fn, ParamsBuffer).

(** [getParamPatterns()]: the trailing buffer read back as an array of
    [NumParams] patterns; reading a slot that was never written has no
    defined value. *)
Fixpoint getParamPatterns (ParamsBuffer : list (option Pattern)) : option (list Pattern) :=
  match ParamsBuffer with
  | [] => Some []
  | Some p :: rest =>
      match getParamPatterns rest with
      | Some ps => Some (p :: ps)
      | None => None
      end
  | None :: _ => None
  end.

Definition FuncExpr_getSourceRange (FuncLoc : SourceLoc) (Body : BraceStmt) : SourceRange :=
  mkRange FuncLoc (Body_getEndLoc Body).

(** [--n] on an [unsigned]. *)
Definition unsigned_pred (n : N) : N := to_unsigned (n + (2 ^ 32 - 1)).

(** [do { ty = cast<FunctionType>(ty)->getResult(); } while (--n);]
    Every turn of the loop takes the result of the function type at hand,
    so that the loop is a recursion on the type. *)
Fixpoint getBodyResultType_loop (ty : TypeBase) (n : N) : Result TypeBase :=
  match ty with
  | FunctionType _ Result_ =>
      let n := unsigned_pred n in
      if (n =? 0)%N then Ok Result_ else getBodyResultType_loop Result_ n
  | _ => Abort (BadCast "FunctionType")
  end.

(** [cast<>] asserts that its argument is not null before it looks at the
    class. *)
Definition FuncExpr_getBodyResultType (NumParams : N) (Ty : Type_) : Result Type_ :=
  let n := to_unsigned NumParams in
  match Ty with
  | None => Abort (AssertionFailure "isa<> used on a null pointer")
  | Some ty => r <- getBodyResultType_loop ty n ;; Ok (Some r)
  end.

(** ** ApplyExpr::getCalledValue (Expr.cpp, lines 297-308) *)

(** [dyn_cast<DeclRefExpr>(E)], giving [getDecl()]. *)
Definition dyn_cast_DeclRefExpr (E : Expr) : option ValueDecl :=
  match E with
  | DeclRefExpr D _ _ => Some D
  | _ => None
  end.

Fixpoint parenDepth (E : Expr) : nat :=
  match E with
  | ParenExpr _ SubExpr _ _ => S (parenDepth SubExpr)
  | _ => O
  end.

(** The static helper.  [E2] is [E] itself unless [E] is a [ParenExpr], in
    which case it is a node below [E]: the pointer test [E != E2] is the
    test that [E] is a [ParenExpr] (lemma [getValueProvidingExpr_same]
    below relates it to equality of the nodes). *)
Equations? getCalledValue (E : Expr) : option ValueDecl by wf (parenDepth E) lt :=
  getCalledValue E with dyn_cast_DeclRefExpr E => {
    | Some D => Some D
    | None with inspect (isa_ParenExpr E) => {
        | exist _ true _ => getCalledValue (getValueProvidingExpr E)
        | exist _ false _ => None } }.
Proof.
  assert (H0 : forall x, parenDepth (getSemanticsProvidingExpr x) = 0).
  { induction x; cbn; try reflexivity. exact IHx. }
  unfold getValueProvidingExpr. rewrite H0.
  destruct E; try discriminate. cbn. lia.
Qed.

Definition ApplyExpr_getCalledValue (this : Expr) : Result (option ValueDecl) :=
  match this with
  | ApplyExpr _ Fn _ _ => Ok (getCalledValue Fn)
  | _ => Abort (BadCast "ApplyExpr")
  end.

(** ** Printing (Expr.cpp, lines 328-608) *)

(** The stream is the text written to it.  [OS.indent(n)] writes [n]
    spaces; an [unsigned] or [size_t] is written in decimal, an [int] in
    decimal with its sign. *)
Fixpoint indent (n : nat) : string :=
  match n with
  | O => EmptyString
  | S n' => String " " (indent n')
  end.

Definition nl : string := String (ascii_of_nat 10) EmptyString.

Definition print_int (z : Z) : string := NilZero.string_of_int (Z.to_int z).

Section PrintEach.
Context {A : Type}.
Variable f : A -> Result string.
Variables before after : string.

(** A loop over a child sequence that writes [before], the child and
    [after] for each child in turn. *)
Fixpoint printEach (l : list A) : Result string :=
  match l with
  | [] => Ok EmptyString
  | x :: l' =>
      s <- f x ;;
      r <- printEach l' ;;
      Ok (before ++ s ++ after ++ r)%string
  end.
End PrintEach.

(** [for (i = 0; i != e; ++i) { if (i) OS << ", "; OS << Mapping[i]; }] *)
Fixpoint printElementMapping (i : nat) (Mapping : list Z) : string :=
  match Mapping with
  | [] => EmptyString
  | x :: Mapping' =>
      ((if (i =? 0)%nat then "" else ", ") ++ print_int x
       ++ printElementMapping (S i) Mapping')%string
  end.

Definition ApplyKind_NodeName (K : ApplyKind) : string :=
  match K with
  | Call => "call_expr"
  | Unary => "unary_expr"
  | Binary => "binary_expr"
  | ConstructorCall => "constructor_call_expr"
  | DotSyntaxCall _ => "dot_syntax_call_expr"
  end.

Definition ImplicitConversionKind_NodeName (K : ImplicitConversionKind) : string :=
  match K with
  | TupleShuffle _ => "tuple_shuffle_expr"
  | LookThroughOneof => "look_through_oneof_expr"
  | ParameterRename => "parameter_rename_expr"
  | ScalarToTuple => "scalar_to_tuple_expr"
  | Load => "load_expr"
  | Materialize => "materialize_expr"
  | Requalify => "requalify_expr"
  end.

(** Printing of what is not an expression is done elsewhere: of a type
    ([OS << Type]), of an identifier ([OS << Identifier]), of a declaration
    and of a statement at an indentation ([D->print(OS, Indent)],
    [S->print(OS, Indent)]), and of an [APInt] ([OS << APInt]).  These are
    parameters of the printer. *)
Record Printers : Type := mkPrinters {
  printType : Type_ -> string;
  printIdentifier : Identifier -> string;
  printDecl : ValueDecl -> nat -> string;
  printStmt : BraceStmt -> nat -> string;
  printAPInt : APInt -> string
}.

Section PrintExpr.
Variable OS : Printers.

Definition printCommon (Indent : nat) (E : Expr) (C : string) : string :=
  (indent Indent ++ "(" ++ C ++ " type='" ++ printType OS (getType E) ++ "'")%string.

(** [printRec(Decl *D)]. *)
Definition printRec_Decl (Indent : nat) (D : ValueDecl) : Result string :=
  Ok (printDecl OS D (Indent + 2)).

(** [PrintExpr::visit], with [printRec(Expr *E)] as the recursive call at
    [Indent + 2].  The printer stops where
    [IntegerLiteralExpr::getValue] stops; the text written before a stop is
    not kept. *)
Fixpoint visit (Indent : nat) (E : Expr) {struct E} : Result string :=
  let printRec := fun (Sub : Expr) => visit (Indent + 2) Sub in
  let printRec_nullable := fun (p : option Expr) =>
    match p with
    | Some Sub => visit (Indent + 2) Sub
    | None => Ok (indent (Indent + 2) ++ "(**NULL EXPRESSION**)")%string
    end in
  match E with
  | ErrorExpr _ =>
      Ok (printCommon Indent E "error_expr" ++ ")")%string
  | IntegerLiteralExpr Val _ Ty =>
      value <-
        (if match Ty with None => true | Some T => isDependentType T end
         then Ok Val
         else v <- IntegerLiteralExpr_getValue Val Ty ;; Ok (printAPInt OS v)) ;;
      Ok (printCommon Indent E "integer_literal_expr" ++ " value=" ++ value ++ ")")%string
  | FloatLiteralExpr Val _ _ =>
      Ok (printCommon Indent E "float_literal_expr" ++ " value=" ++ Val ++ ")")%string
  | CharacterLiteralExpr Val _ _ =>
      Ok (printCommon Indent E "character_literal_expr" ++ " value="
          ++ Twine_unsigned Val ++ ")")%string
  | StringLiteralExpr Val _ _ =>
      Ok (printCommon Indent E "string_literal_expr" ++ " value=" ++ Val ++ ")")%string
  | InterpolatedStringLiteralExpr _ Segments _ =>
      body <- printEach printRec "" nl Segments ;;
      Ok (printCommon Indent E "interpolated_string_literal_expr" ++ nl ++ body ++ ")")%string
  | DeclRefExpr D _ _ =>
      Ok (printCommon Indent E "declref_expr" ++ " decl=" ++ printIdentifier OS (getName D)
          ++ ")")%string
  | OverloadedDeclRefExpr Decls _ _ =>
      body <- printEach (printRec_Decl Indent) nl "" Decls ;;
      Ok (printCommon Indent E "overloadeddeclref_expr" ++ " #decls="
          ++ Twine_unsigned (N.of_nat (List.length Decls)) ++ body ++ ")")%string
  | OverloadedMemberRefExpr Base _ Decls _ _ =>
      base <- printRec Base ;;
      body <- printEach (printRec_Decl Indent) nl "" Decls ;;
      Ok (printCommon Indent E "overloadedmemberref_expr" ++ "#decls="
          ++ Twine_unsigned (N.of_nat (List.length Decls)) ++ nl ++ "base = "
          ++ base ++ body ++ ")")%string
  | UnresolvedDeclRefExpr Name _ _ =>
      Ok (printCommon Indent E "unresolved_decl_ref_expr" ++ " name="
          ++ printIdentifier OS Name ++ ")")%string
  | MemberRefExpr Base D _ _ _ =>
      base <- printRec Base ;;
      Ok (printCommon Indent E "member_ref_expr" ++ " decl=" ++ printIdentifier OS (getName D)
          ++ nl ++ base ++ ")")%string
  | UnresolvedMemberExpr Name _ _ =>
      Ok (printCommon Indent E "unresolved_member_expr" ++ " name='"
          ++ printIdentifier OS Name ++ "')")%string
  | ParenExpr _ SubExpr _ _ =>
      sub <- printRec SubExpr ;;
      Ok (printCommon Indent E "paren_expr" ++ nl ++ sub ++ ")")%string
  | TupleExpr _ SubExprs _ _ =>
      body <-
        printEach
          (fun p : option Expr =>
             match p with
             | Some Sub => visit (Indent + 2) Sub
             | None =>
                 Ok (indent (Indent + 2) ++ "<<tuple element default value>>")%string
             end)
          nl "" SubExprs ;;
      Ok (printCommon Indent E "tuple_expr" ++ body ++ ")")%string
  | SubscriptExpr _ _ Base Index _ =>
      base <- printRec Base ;;
      index <- printRec Index ;;
      Ok (printCommon Indent E "subscript_expr" ++ nl ++ base ++ nl ++ index ++ ")")%string
  | OverloadedSubscriptExpr Base _ _ Index _ _ =>
      base <- printRec Base ;;
      index <- printRec Index ;;
      Ok (printCommon Indent E "overloaded_subscript_expr" ++ nl ++ base ++ nl ++ index
          ++ ")")%string
  | UnresolvedDotExpr Base Name _ _ =>
      base <-
        match Base with
        | Some Sub => s <- visit (Indent + 2) Sub ;; Ok (nl ++ s)%string
        | None => Ok EmptyString
        end ;;
      Ok (printCommon Indent E "unresolved_dot_expr" ++ " field '" ++ Name ++ "'"
          ++ base ++ ")")%string
  | ModuleExpr _ _ =>
      Ok (printCommon Indent E "module_expr" ++ ")")%string
  | TupleElementExpr K Base FieldNo _ =>
      base <- printRec Base ;;
      Ok (printCommon Indent E
            (match K with
             | SyntacticTupleElement => "syntactic_tuple_element_expr"
             | ImplicitThisTupleElement => "implicit_this_tuple_element_expr"
             end)
          ++ " field #" ++ Twine_unsigned FieldNo ++ nl ++ base ++ ")")%string
  | ImplicitConversionExpr K SubExpr _ =>
      sub <- printRec SubExpr ;;
      Ok (printCommon Indent E (ImplicitConversionKind_NodeName K)
          ++ (match K with
              | TupleShuffle ElementMapping =>
                  " elements=[" ++ printElementMapping 0 ElementMapping ++ "]"
              | _ => ""
              end)
          ++ nl ++ sub ++ ")")%string
  | AddressOfExpr _ SubExpr _ =>
      sub <- printRec SubExpr ;;
      Ok (printCommon Indent E "address_of_expr" ++ nl ++ sub ++ ")")%string
  | SequenceExpr Elements _ =>
      body <- printEach printRec nl "" Elements ;;
      Ok (printCommon Indent E "sequence_expr" ++ nl ++ body ++ ")")%string
  | FuncExpr _ _ Body _ =>
      Ok (printCommon Indent E "func_expr" ++ nl ++ printStmt OS Body (Indent + 2) ++ ")")%string
  | ClosureExpr K Body _ =>
      body <- printRec Body ;;
      Ok (printCommon Indent E
            (match K with
             | ExplicitClosure => "explicit_closure_expr"
             | ImplicitClosure => "implicit_closure_expr"
             end)
          ++ nl ++ body ++ ")")%string
  | NewArrayExpr _ ElementTy Bounds _ =>
      body <- printEach printRec_nullable "" "" Bounds ;;
      Ok (printCommon Indent E "new_array_expr" ++ " elementType='"
          ++ printType OS ElementTy ++ "'" ++ nl ++ body ++ ")")%string
  | ApplyExpr K Fn Arg _ =>
      fn <- printRec Fn ;;
      arg <- printRec Arg ;;
      Ok (printCommon Indent E (ApplyKind_NodeName K) ++ nl ++ fn ++ nl ++ arg ++ ")")%string
  | DotSyntaxBaseIgnoredExpr LHS _ RHS _ =>
      lhs <- printRec LHS ;;
      rhs <- printRec RHS ;;
      Ok (printCommon Indent E "dot_syntax_base_ignored" ++ nl ++ lhs ++ nl ++ rhs
          ++ ")")%string
  | CoerceExpr LHS RHS _ =>
      lhs <- printRec LHS ;;
      rhs <- printRec RHS ;;
      Ok (printCommon Indent E "coerce_expr" ++ nl ++ lhs ++ nl ++ rhs ++ ")")%string
  end.

(** [Expr::print(OS, Indent)] and [Expr::dump()]. *)
Definition print (this : Expr) (Indent : nat) : Result string := visit Indent this.

Definition dump (this : Expr) : Result string :=
  s <- print this 0 ;; Ok (s ++ nl)%string.
End PrintExpr.

(** The sub-expressions of a node that the printer descends into. *)
Definition nonnull (p : option Expr) : list Expr :=
  match p with Some Sub => [Sub] | None => [] end.

Definition children (E : Expr) : list Expr :=
  match E with
  | InterpolatedStringLiteralExpr _ Segments _ => Segments
  | OverloadedMemberRefExpr Base _ _ _ _ => [Base]
  | MemberRefExpr Base _ _ _ _ => [Base]
  | ParenExpr _ SubExpr _ _ => [SubExpr]
  | TupleExpr _ SubExprs _ _ => flat_map nonnull SubExprs
  | SubscriptExpr _ _ Base Index _ => [Base; Index]
  | OverloadedSubscriptExpr Base _ _ Index _ _ => [Base; Index]
  | UnresolvedDotExpr Base _ _ _ => nonnull Base
  | TupleElementExpr _ Base _ _ => [Base]
  | ImplicitConversionExpr _ SubExpr _ => [SubExpr]
  | AddressOfExpr _ SubExpr _ => [SubExpr]
  | SequenceExpr Elements _ => Elements
  | ClosureExpr _ Body _ => [Body]
  | NewArrayExpr _ _ Bounds _ => flat_map nonnull Bounds
  | ApplyExpr _ Fn Arg _ => [Fn; Arg]
  | DotSyntaxBaseIgnoredExpr LHS _ RHS _ => [LHS; RHS]
  | CoerceExpr LHS RHS _ => [LHS; RHS]
  | _ => []
  end.

(** [E'] occurs in the tree of [E]. *)
Inductive occursIn (E' : Expr) : Expr -> Prop :=
| occursIn_here : occursIn E' E'
| occursIn_child (E c : Expr) : In c (children E) -> occursIn E' c -> occursIn E' E.

(** What the printer needs of an integer literal: no type yet, a
    dependent type, or a value. *)
Definition literalPrints (Val : string) (Ty : Type_) : Prop :=
  Ty = None
  \/ (exists T, Ty = Some T /\ isDependentType T = true)
  \/ (exists v, IntegerLiteralExpr_getValue Val Ty = Ok v).

(** The node with every source location stored in it or below it replaced
    by the invalid location; statements and declarations are left as they
    are. *)
Fixpoint eraseLocs (E : Expr) : Expr :=
  let L := SourceLoc_default in
  match E with
  | ErrorExpr Ty => ErrorExpr Ty
  | IntegerLiteralExpr Val _ Ty => IntegerLiteralExpr Val L Ty
  | FloatLiteralExpr Val _ Ty => FloatLiteralExpr Val L Ty
  | CharacterLiteralExpr Val _ Ty => CharacterLiteralExpr Val L Ty
  | StringLiteralExpr Val _ Ty => StringLiteralExpr Val L Ty
  | InterpolatedStringLiteralExpr _ Segments Ty =>
      InterpolatedStringLiteralExpr L (map eraseLocs Segments) Ty
  | DeclRefExpr D _ Ty => DeclRefExpr D L Ty
  | OverloadedDeclRefExpr Decls _ Ty => OverloadedDeclRefExpr Decls L Ty
  | OverloadedMemberRefExpr Base _ Decls _ Ty =>
      OverloadedMemberRefExpr (eraseLocs Base) L Decls L Ty
  | UnresolvedDeclRefExpr Name _ Ty => UnresolvedDeclRefExpr Name L Ty
  | MemberRefExpr Base D _ _ Ty => MemberRefExpr (eraseLocs Base) D L L Ty
  | UnresolvedMemberExpr Name _ Ty => UnresolvedMemberExpr Name L Ty
  | ParenExpr _ SubExpr _ Ty => ParenExpr L (eraseLocs SubExpr) L Ty
  | TupleExpr _ SubExprs _ Ty =>
      TupleExpr L
        (map (fun p => match p with Some Sub => Some (eraseLocs Sub) | None => None end)
           SubExprs) L Ty
  | SubscriptExpr D _ Base Index Ty =>
      SubscriptExpr D (mkRange L L) (eraseLocs Base) (eraseLocs Index) Ty
  | OverloadedSubscriptExpr Base Decls _ Index _ Ty =>
      OverloadedSubscriptExpr (eraseLocs Base) Decls L (eraseLocs Index) L Ty
  | UnresolvedDotExpr Base Name _ Ty =>
      UnresolvedDotExpr
        (match Base with Some Sub => Some (eraseLocs Sub) | None => None end) Name L Ty
  | ModuleExpr _ Ty => ModuleExpr L Ty
  | TupleElementExpr K Base FieldNo Ty => TupleElementExpr K (eraseLocs Base) FieldNo Ty
  | ImplicitConversionExpr K SubExpr Ty => ImplicitConversionExpr K (eraseLocs SubExpr) Ty
  | AddressOfExpr _ SubExpr Ty => AddressOfExpr L (eraseLocs SubExpr) Ty
  | SequenceExpr Elements Ty => SequenceExpr (map eraseLocs Elements) Ty
  | FuncExpr _ NumParams Body Ty => FuncExpr L NumParams Body Ty
  | ClosureExpr K Body Ty => ClosureExpr K (eraseLocs Body) Ty
  | NewArrayExpr _ ElementTy Bounds Ty =>
      NewArrayExpr L ElementTy
        (map (fun p => match p with Some Sub => Some (eraseLocs Sub) | None => None end)
           Bounds) Ty
  | ApplyExpr K Fn Arg Ty =>
      ApplyExpr (match K with DotSyntaxCall _ => DotSyntaxCall L | _ => K end)
        (eraseLocs Fn) (eraseLocs Arg) Ty
  | DotSyntaxBaseIgnoredExpr LHS _ RHS Ty =>
      DotSyntaxBaseIgnoredExpr (eraseLocs LHS) L (eraseLocs RHS) Ty
  | CoerceExpr LHS RHS Ty => CoerceExpr (eraseLocs LHS) (eraseLocs RHS) Ty
  end.

(** ** Auxiliary notions for the further properties *)

(** The curried function type [I1 -> ... -> Ik -> R]. *)
Definition arrows (Inputs : list TypeBase) (R : TypeBase) : TypeBase :=
  fold_right FunctionType R Inputs.

Definition isa_FunctionType (T : TypeBase) : bool :=
  match T with FunctionType _ _ => true | _ => false end.

Definition APInt_inRange (a : APInt) : Prop :=
  (getZExtValue a < 2 ^ getBitWidth a)%N.

(** The number a digit sequence denotes after the digits read so far gave
    [acc]. *)
Fixpoint digitsValue (d : Decimal.uint) (acc : N) : N :=
  match d with
  | Decimal.Nil => acc
  | Decimal.D0 l => digitsValue l (10 * acc)
  | Decimal.D1 l => digitsValue l (10 * acc + 1)
  | Decimal.D2 l => digitsValue l (10 * acc + 2)
  | Decimal.D3 l => digitsValue l (10 * acc + 3)
  | Decimal.D4 l => digitsValue l (10 * acc + 4)
  | Decimal.D5 l => digitsValue l (10 * acc + 5)
  | Decimal.D6 l => digitsValue l (10 * acc + 6)
  | Decimal.D7 l => digitsValue l (10 * acc + 7)
  | Decimal.D8 l => digitsValue l (10 * acc + 8)
  | Decimal.D9 l => digitsValue l (10 * acc + 9)
  end%N.

Definition returns {A : Type} (r : Result A) : Prop := exists a, r = Ok a.

(** The number a sequence of hexadecimal digits denotes after the digits
    read so far gave [acc]. *)
Fixpoint hexDigitsValue (d : Hexadecimal.uint) (acc : N) : N :=
  match d with
  | Hexadecimal.Nil => acc
  | Hexadecimal.D0 l => hexDigitsValue l (16 * acc)
  | Hexadecimal.D1 l => hexDigitsValue l (16 * acc + 1)
  | Hexadecimal.D2 l => hexDigitsValue l (16 * acc + 2)
  | Hexadecimal.D3 l => hexDigitsValue l (16 * acc + 3)
  | Hexadecimal.D4 l => hexDigitsValue l (16 * acc + 4)
  | Hexadecimal.D5 l => hexDigitsValue l (16 * acc + 5)
  | Hexadecimal.D6 l => hexDigitsValue l (16 * acc + 6)
  | Hexadecimal.D7 l => hexDigitsValue l (16 * acc + 7)
  | Hexadecimal.D8 l => hexDigitsValue l (16 * acc + 8)
  | Hexadecimal.D9 l => hexDigitsValue l (16 * acc + 9)
  | Hexadecimal.Da l => hexDigitsValue l (16 * acc + 10)
  | Hexadecimal.Db l => hexDigitsValue l (16 * acc + 11)
  | Hexadecimal.Dc l => hexDigitsValue l (16 * acc + 12)
  | Hexadecimal.Dd l => hexDigitsValue l (16 * acc + 13)
  | Hexadecimal.De l => hexDigitsValue l (16 * acc + 14)
  | Hexadecimal.Df l => hexDigitsValue l (16 * acc + 15)
  end%N.

(** The spelling of [n] as a hexadecimal literal: "0x" and the digits. *)
Definition hexSpelling (n : N) : string :=
  ("0x" ++ HexadecimalString.NilZero.string_of_uint (N.to_hex_uint n))%string.

(** ** The statements of the specification, as predicates *)

(** What the specification asks of the node built for [Decls] when more
    than one candidate remains. *)
Definition isOverloadSetOver (Decls : list ValueDecl) (r : Result Expr) : Prop :=
  exists e,
    r = Ok e
    /\ isOverloadSet e = true
    /\ List.length (getDecls e) = List.length Decls
    /\ (forall i, nth_error (getDecls e) i = nth_error Decls i)
    /\ getType e = Some UnstructuredDependentType
    /\ (forall T, getType e = Some T -> isDependentType T = true).

(** What the specification asks of the node built for the single
    candidate [D]. *)
Definition isResolvedTo (D : ValueDecl) (r : Result Expr) : Prop :=
  exists e,
    r = Ok e /\ isOverloadSet e = false /\ getType e = getTypeOfReference D.

(** The single-candidate member collapse in the words of the
    specification: when the receiver's static type is a metatype or the
    candidate is not an instance member, a base-ignored dot access;
    otherwise, for a function candidate, a dot-syntax call with the receiver
    as argument; otherwise, for a variable candidate, a member access that
    binds the receiver and the declaration. *)
Definition memberCollapseAsStated (Hdr : ExprHeader) (Base : Expr)
    (DotLoc : SourceLoc) (D : ValueDecl) (MemberLoc : SourceLoc) : Prop :=
  let Fn := DeclRefExpr D MemberLoc (getTypeOfReference D) in
  let r := OverloadedMemberRefExpr_createWithCopy Hdr Base DotLoc [D] MemberLoc in
  let metatype := exists T, getType Base = Some T /\ is_MetaTypeType T = true in
  (metatype \/ isInstanceMember D = false ->
     exists Ty, r = Ok (DotSyntaxBaseIgnoredExpr Base DotLoc Fn Ty))
  /\ (~ metatype -> isInstanceMember D = true -> isa_FuncDecl D = true ->
     exists Ty, r = Ok (ApplyExpr (DotSyntaxCall DotLoc) Fn Base Ty))
  /\ (~ metatype -> isInstanceMember D = true -> isa_FuncDecl D = false ->
      isa_VarDecl D = true ->
     exists Ty, r = Ok (MemberRefExpr Base D DotLoc MemberLoc Ty)).

Definition firstChild (SubExprs : list (option Expr)) : option Expr :=
  hd None SubExprs.

Definition lastChild (SubExprs : list (option Expr)) : option Expr :=
  last SubExprs None.

(** The delimiter invariant in the words of the specification: the node
    has valid left and right delimiters and its range is their span, or its
    delimiters are invalid and its range runs from the start of its first
    child to the end of its last child. *)
Definition delimiterInvariant (getStartLoc getEndLoc : Expr -> Result SourceLoc)
    (LParenLoc : SourceLoc) (SubExprs : list (option Expr)) (RParenLoc : SourceLoc) : Prop :=
  (isValid LParenLoc = true /\ isValid RParenLoc = true
   /\ TupleExpr_getSourceRange getStartLoc getEndLoc LParenLoc SubExprs RParenLoc
      = Ok (mkRange LParenLoc RParenLoc))
  \/ (isValid LParenLoc = false /\ isValid RParenLoc = false
      /\ exists E0 En S E,
           firstChild SubExprs = Some E0 /\ lastChild SubExprs = Some En
           /\ getStartLoc E0 = Ok S /\ getEndLoc En = Ok E
           /\ TupleExpr_getSourceRange getStartLoc getEndLoc LParenLoc SubExprs RParenLoc
              = Ok (mkRange S E)).

(** The declaration the loop appends at index [i]. *)
Definition anonymousArg (this : DeclContext) (i : nat) : VarDecl :=
  mkVarDecl SourceLoc_default ("$" ++ Twine_unsigned (N.of_nat i))%string None this.

(** ** Reference data used to instantiate the statements *)

Definition Int32Ty : Type_ := Some (BuiltinIntegerType 32).
Definition BoolTy : Type_ := Some (NominalType "Bool").
Definition PointTy : Type_ := Some (NominalType "Point").
Definition PointMetaTy : Type_ := Some (MetaTypeType "Point").

Definition loc (n : N) : SourceLoc := mkLoc n.

(** A stored property [x : Int32], a method [norm], a static function
    [origin], a oneof element [none], and two subscripts of [Point]. *)
Definition decl_x : ValueDecl :=
  mkValueDecl VarDeclKind "x" (Some (LValueType (BuiltinIntegerType 32))) true None.
Definition decl_norm : ValueDecl :=
  mkValueDecl FuncDeclKind "norm"
    (Some (FunctionType (NominalType "Point") (BuiltinIntegerType 32))) true None.
Definition decl_origin : ValueDecl :=
  mkValueDecl FuncDeclKind "origin"
    (Some (FunctionType (NominalType "Unit") (NominalType "Point"))) false None.
Definition decl_none : ValueDecl :=
  mkValueDecl OtherValueDeclKind "none" PointTy true None.
Definition decl_subscript_int : ValueDecl :=
  mkValueDecl SubscriptDeclKind "__subscript" Int32Ty true Int32Ty.
Definition decl_subscript_bool : ValueDecl :=
  mkValueDecl SubscriptDeclKind "__subscript" BoolTy true BoolTy.

(** A receiver [p : Point], the type [Point] used as a receiver, a receiver
    that has no type yet, and an index. *)
Definition expr_p : Expr :=
  DeclRefExpr (mkValueDecl VarDeclKind "p" PointTy false None) (loc 10) PointTy.
Definition expr_Point : Expr :=
  DeclRefExpr (mkValueDecl OtherValueDeclKind "Point" PointMetaTy false None)
    (loc 10) PointMetaTy.
Definition expr_untyped : Expr := UnresolvedDeclRefExpr "q" (loc 10) None.
Definition expr_i : Expr := IntegerLiteralExpr "0" (loc 12) Int32Ty.

(** The header read with the defaults one expects: a dot-syntax call is
    built untyped, a base-ignored access takes the type of its right-hand
    side, and a subscript node built without a declaration has none. *)
Definition Hdr0 : ExprHeader :=
  mkExprHeader (fun _ _ _ => None) (fun _ _ Fn => getType Fn) None.

(** Printers for what is not an expression: a type by its name when it is
    a nominal type, an identifier by its text, an [APInt] by its value. *)
Definition Printers0 : Printers :=
  mkPrinters
    (fun Ty => match Ty with Some (NominalType Name) => Name | _ => "" end)
    (fun Name => Name)
    (fun D Indent => (indent Indent ++ "(decl " ++ getName D ++ ")")%string)
    (fun _ Indent => (indent Indent ++ "(brace_stmt)")%string)
    (fun v => Twine_unsigned (getZExtValue v)).

(** Start and end of a child, for nodes that store their location. *)
Definition leaf_getLoc (E : Expr) : Result SourceLoc :=
  match E with
  | IntegerLiteralExpr _ Loc _ | DeclRefExpr _ Loc _
  | UnresolvedDeclRefExpr _ Loc _ => Ok Loc
  | _ => Abort (Unreachable "expression type not handled!")
  end.

(** * Properties *)

(** ** Transparent wrappers *)

Lemma getSemanticsProvidingExpr_not_paren (e : Expr) :
  isa_ParenExpr (getSemanticsProvidingExpr e) = false.
Proof.
  induction e; cbn; try reflexivity. exact IHe.
Qed.

Lemma getSemanticsProvidingExpr_fixed (e : Expr) :
  isa_ParenExpr e = false -> getSemanticsProvidingExpr e = e.
Proof.
  destruct e; cbn; intros H; try reflexivity. discriminate H.
Qed.

Lemma getSemanticsProvidingExpr_idempotent (e : Expr) :
  getSemanticsProvidingExpr (getSemanticsProvidingExpr e) = getSemanticsProvidingExpr e.
Proof.
  apply getSemanticsProvidingExpr_fixed, getSemanticsProvidingExpr_not_paren.
Qed.

(** Every node is a chain of parenthesizations around the node the query
    returns: the chains of the statement below cover all inputs. *)
Lemma parens_decompose (e : Expr) :
  exists ws, e = parens ws (getSemanticsProvidingExpr e).
Proof.
  induction e; try (exists []; reflexivity).
  destruct IHe as [ws Hws].
  exists ((LParenLoc, RParenLoc, Ty) :: ws). cbn. now rewrite <- Hws.
Qed.

(** C5. For every [N >= 0] and every node [e] that is not a
    parenthesization, [getSemanticsProvidingExpr] applied to a chain of [N]
    parenthesization nodes around [e] returns exactly [e].  The query always
    returns a node (it is a total function into nodes), the node it returns
    is never a parenthesization, and applying the query twice gives what
    applying it once gives. *)
Theorem getSemanticsProvidingExpr_parens
    (N : nat) (ws : list (SourceLoc * SourceLoc * Type_)) (e : Expr) :
  List.length ws = N ->
  isa_ParenExpr e = false ->
  getSemanticsProvidingExpr (parens ws e) = e
  /\ (forall x, exists r, getSemanticsProvidingExpr x = r /\ isa_ParenExpr r = false)
  /\ (forall x, getSemanticsProvidingExpr (getSemanticsProvidingExpr x)
                = getSemanticsProvidingExpr x).
Proof.
  intros HN He. split; [| split].
  - clear HN. induction ws as [| [[L R] Ty] ws IH]; cbn.
    + now apply getSemanticsProvidingExpr_fixed.
    + exact IH.
  - intros x. eexists. split; [reflexivity |].
    apply getSemanticsProvidingExpr_not_paren.
  - exact getSemanticsProvidingExpr_idempotent.
Qed.

Lemma getSemanticsProvidingExpr_parens_witness :
  getSemanticsProvidingExpr
    (ParenExpr (loc 1) (ParenExpr (loc 2) expr_i (loc 3) Int32Ty) (loc 4) None) = expr_i.
Proof.
  exact (proj1 (getSemanticsProvidingExpr_parens 2
                  [(loc 1, loc 4, None); (loc 2, loc 3, Int32Ty)] expr_i
                  eq_refl eq_refl)).
Defined.

(** C6. For every node, [getValueProvidingExpr] returns the node that
    [getSemanticsProvidingExpr] returns. *)
Theorem getValueProvidingExpr_is_getSemanticsProvidingExpr (e : Expr) :
  getValueProvidingExpr e = getSemanticsProvidingExpr e.
Proof.
  unfold getValueProvidingExpr. reflexivity.
Qed.

(** ** Implicit nodes *)

Section ImplicitProperties.
Variable ICE : bool.   (* AddressOf_is_ImplicitConversion *)

(** The function is the two tests of the source, in their order. *)
Lemma isImplicit_unfold (e : Expr) :
  isImplicit ICE e =
  match e with
  | DeclRefExpr _ Loc _ => negb (isValid Loc)
  | _ => match dyn_cast_ImplicitConversionExpr ICE e with
         | Some SubExpr => isImplicit ICE SubExpr
         | None => false
         end
  end.
Proof.
  destruct e; cbn; try reflexivity.
  destruct ICE; reflexivity.
Qed.

(** C7. For every node, [isImplicit] is true exactly when (a) the node
    is a [DeclRefExpr] whose location is invalid, or (b) the node is an
    [ImplicitConversionExpr] whose sub-expression is itself implicit; on a
    node that is neither a [DeclRefExpr] nor an [ImplicitConversionExpr]
    it is false. *)
Theorem isImplicit_iff (e : Expr) :
  (isImplicit ICE e = true <->
     (exists D Loc Ty, e = DeclRefExpr D Loc Ty /\ isValid Loc = false)
     \/ (exists SubExpr,
           dyn_cast_ImplicitConversionExpr ICE e = Some SubExpr
           /\ isImplicit ICE SubExpr = true))
  /\ (isa_DeclRefExpr e = false ->
      dyn_cast_ImplicitConversionExpr ICE e = None ->
      isImplicit ICE e = false).
Proof.
  split.
  - rewrite isImplicit_unfold. split.
    + intros H. destruct e;
        try (right; destruct (dyn_cast_ImplicitConversionExpr ICE _) as [s |] eqn:E;
             [exists s; split; [reflexivity | exact H] | discriminate H]).
      left. exists D, Loc, Ty. split; [reflexivity |].
      now apply negb_true_iff in H.
    + intros [(D & Loc & Ty & -> & HL) | (s & Hs & Hi)].
      * now rewrite HL.
      * destruct e; try (rewrite Hs; exact Hi). discriminate Hs.
  - intros Hd Hc. rewrite isImplicit_unfold, Hc.
    destruct e; try reflexivity. discriminate Hd.
Qed.
End ImplicitProperties.

Lemma isImplicit_iff_witness :
  isImplicit false
    (ImplicitConversionExpr Load (DeclRefExpr decl_x SourceLoc_default Int32Ty) Int32Ty) = true
  /\ isImplicit false (ImplicitConversionExpr Load (DeclRefExpr decl_x (loc 5) Int32Ty) Int32Ty)
     = false
  /\ isImplicit true (ParenExpr (loc 1) (DeclRefExpr decl_x SourceLoc_default Int32Ty) (loc 2) Int32Ty)
     = false.
Proof.
  split; [| split].
  - apply (proj1 (isImplicit_iff false _)). right.
    eexists. split; [reflexivity |].
    apply (proj1 (isImplicit_iff false _)). left.
    do 3 eexists. split; reflexivity.
  - reflexivity.
  - apply (proj2 (isImplicit_iff true _)); reflexivity.
Defined.

(** ** Overload collapse *)

Lemma AllocateCopy_eq {A : Type} (Arr : list A) : AllocateCopy Arr = Arr.
Proof.
  induction Arr as [| x Arr IH]; cbn; [reflexivity | now rewrite IH].
Qed.

Section CollapseProperties.
Variable Hdr : ExprHeader.

Lemma OverloadedDeclRefExpr_createWithCopy_copy D1 D2 Decls Loc :
  OverloadedDeclRefExpr_createWithCopy (D1 :: D2 :: Decls) Loc
  = Ok (OverloadedDeclRefExpr (D1 :: D2 :: Decls) Loc UnstructuredDependentType_get).
Proof.
  unfold OverloadedDeclRefExpr_createWithCopy. cbn.
  now rewrite AllocateCopy_eq.
Qed.

Lemma OverloadedMemberRefExpr_createWithCopy_copy Base DotLoc D1 D2 Decls MemberLoc :
  OverloadedMemberRefExpr_createWithCopy Hdr Base DotLoc (D1 :: D2 :: Decls) MemberLoc
  = Ok (OverloadedMemberRefExpr Base DotLoc (D1 :: D2 :: Decls) MemberLoc
          UnstructuredDependentType_get).
Proof.
  unfold OverloadedMemberRefExpr_createWithCopy. cbn.
  now rewrite AllocateCopy_eq.
Qed.

Lemma OverloadedSubscriptExpr_createWithCopy_copy Base D1 D2 Decls L Index R :
  OverloadedSubscriptExpr_createWithCopy Hdr Base (D1 :: D2 :: Decls) L Index R
  = Ok (OverloadedSubscriptExpr Base (D1 :: D2 :: Decls) L Index R
          UnstructuredDependentType_get).
Proof.
  unfold OverloadedSubscriptExpr_createWithCopy. cbn.
  now rewrite AllocateCopy_eq.
Qed.

Lemma isOverloadSetOver_intro Decls e :
  isOverloadSet e = true -> getDecls e = Decls ->
  getType e = Some UnstructuredDependentType ->
  isOverloadSetOver Decls (Ok e).
Proof.
  intros Ho Hd Ht. exists e. rewrite Hd, Ht.
  repeat split; try assumption.
  intros T [= <-]. reflexivity.
Qed.

(** C2. For every candidate list with [N >= 2] candidates, each of the
    three constructors returns an overload-set node whose stored candidate
    list has length exactly [N] and holds the candidates in the input order,
    and whose type is the unstructured dependent type. *)
Theorem collapse_many_candidates (N : nat) (Decls : list ValueDecl) :
  List.length Decls = N -> 2 <= N ->
  (forall Loc,
      isOverloadSetOver Decls (OverloadedDeclRefExpr_createWithCopy Decls Loc))
  /\ (forall Base DotLoc MemberLoc,
      isOverloadSetOver Decls
        (OverloadedMemberRefExpr_createWithCopy Hdr Base DotLoc Decls MemberLoc))
  /\ (forall Base LBracketLoc Index RBracketLoc,
      isOverloadSetOver Decls
        (OverloadedSubscriptExpr_createWithCopy Hdr Base Decls LBracketLoc Index
           RBracketLoc)).
Proof.
  intros <- HN.
  destruct Decls as [| D1 [| D2 Decls]]; cbn in HN; try lia.
  split; [| split]; intros.
  - rewrite OverloadedDeclRefExpr_createWithCopy_copy.
    now apply isOverloadSetOver_intro.
  - rewrite OverloadedMemberRefExpr_createWithCopy_copy.
    now apply isOverloadSetOver_intro.
  - rewrite OverloadedSubscriptExpr_createWithCopy_copy.
    now apply isOverloadSetOver_intro.
Qed.

(** C3, amended.  For every member-reference collapse with exactly one
    candidate [D]: if [D] is not an instance member, or the receiver's
    static type is a metatype, the result is the [DotSyntaxBaseIgnoredExpr]
    of the receiver, the dot location and the resolved reference to [D];
    otherwise, for a receiver that has a static type, if [D] is a function
    the result is the [DotSyntaxCallExpr] with the resolved reference to [D]
    as callee and the receiver as argument, and if [D] is a variable it is
    the [MemberRefExpr] that binds the receiver and [D], at the two
    locations given, with the reference type of [D]. *)
Theorem member_collapse_cases
    (Base : Expr) (DotLoc : SourceLoc) (D : ValueDecl) (MemberLoc : SourceLoc) :
  let Fn := DeclRefExpr D MemberLoc (getTypeOfReference D) in
  let r := OverloadedMemberRefExpr_createWithCopy Hdr Base DotLoc [D] MemberLoc in
  (isInstanceMember D = false ->
     r = Ok (DotSyntaxBaseIgnoredExpr Base DotLoc Fn
               (DotSyntaxBaseIgnoredExpr_Ty Hdr Base DotLoc Fn)))
  /\ (forall T, getType Base = Some T -> is_MetaTypeType T = true ->
     r = Ok (DotSyntaxBaseIgnoredExpr Base DotLoc Fn
               (DotSyntaxBaseIgnoredExpr_Ty Hdr Base DotLoc Fn)))
  /\ (forall T, getType Base = Some T -> is_MetaTypeType T = false ->
      isInstanceMember D = true -> isa_FuncDecl D = true ->
     r = Ok (ApplyExpr (DotSyntaxCall DotLoc) Fn Base
               (DotSyntaxCallExpr_Ty Hdr Fn DotLoc Base)))
  /\ (forall T, getType Base = Some T -> is_MetaTypeType T = false ->
      isInstanceMember D = true -> isa_FuncDecl D = false -> isa_VarDecl D = true ->
     r = Ok (MemberRefExpr Base D DotLoc MemberLoc (getTypeOfReference D))).
Proof.
  cbv zeta. unfold OverloadedMemberRefExpr_createWithCopy. cbn.
  split; [| split; [| split]].
  - intros ->. reflexivity.
  - intros T HT HM. destruct (isInstanceMember D); [| reflexivity].
    rewrite HT. cbn. rewrite HM. reflexivity.
  - intros T HT HM -> HF. rewrite HT. cbn. rewrite HM. cbn. rewrite HF. reflexivity.
  - intros T HT HM -> HF HV. rewrite HT. cbn. rewrite HM. cbn. rewrite HF.
    unfold cast_VarDecl. rewrite HV. reflexivity.
Qed.

(** The two inputs on which a single-candidate member collapse stops: an
    instance member looked up on a receiver that has no type, and an
    instance member that is neither a function nor a variable. *)
Lemma member_collapse_stops
    (Base : Expr) (DotLoc : SourceLoc) (D : ValueDecl) (MemberLoc : SourceLoc) :
  isInstanceMember D = true ->
  (getType Base = None ->
     OverloadedMemberRefExpr_createWithCopy Hdr Base DotLoc [D] MemberLoc
     = Abort NullDereference)
  /\ (forall T, getType Base = Some T -> is_MetaTypeType T = false ->
      isa_FuncDecl D = false -> isa_VarDecl D = false ->
     OverloadedMemberRefExpr_createWithCopy Hdr Base DotLoc [D] MemberLoc
     = Abort (BadCast "VarDecl")).
Proof.
  intros HI. unfold OverloadedMemberRefExpr_createWithCopy. cbn. rewrite HI.
  split.
  - intros ->. reflexivity.
  - intros T HT HM HF HV. rewrite HT. cbn. rewrite HM. cbn. rewrite HF.
    unfold cast_VarDecl. rewrite HV. reflexivity.
Qed.

(** C4. Each of the three constructors, called with an empty candidate
    list, stops on its assertion and returns no node; called with a
    non-empty list, none of them stops on an assertion. *)
Theorem collapse_empty_candidates :
  (forall Loc,
      OverloadedDeclRefExpr_createWithCopy [] Loc
      = Abort (AssertionFailure "Cannot create a decl ref with an empty list of decls"))
  /\ (forall Base DotLoc MemberLoc,
      OverloadedMemberRefExpr_createWithCopy Hdr Base DotLoc [] MemberLoc
      = Abort (AssertionFailure "Cannot create an overloaded member ref with no decls"))
  /\ (forall Base L Index R,
      OverloadedSubscriptExpr_createWithCopy Hdr Base [] L Index R
      = Abort (AssertionFailure "Cannot create an overloaded member ref with no decls"))
  /\ (forall D Decls msg,
      (forall Loc,
          OverloadedDeclRefExpr_createWithCopy (D :: Decls) Loc
          <> Abort (AssertionFailure msg))
      /\ (forall Base DotLoc MemberLoc,
          OverloadedMemberRefExpr_createWithCopy Hdr Base DotLoc (D :: Decls) MemberLoc
          <> Abort (AssertionFailure msg))
      /\ (forall Base L Index R,
          OverloadedSubscriptExpr_createWithCopy Hdr Base (D :: Decls) L Index R
          <> Abort (AssertionFailure msg))).
Proof.
  split; [| split; [| split]]; try (intros; reflexivity).
  intros D Decls msg. split; [| split]; intros.
  - unfold OverloadedDeclRefExpr_createWithCopy. cbn.
    destruct Decls; discriminate.
  - unfold OverloadedMemberRefExpr_createWithCopy. cbn.
    destruct Decls; [| discriminate]. cbn.
    destruct (isInstanceMember D); cbn; [| discriminate].
    destruct (getType Base) as [T |]; cbn; [| discriminate].
    destruct (is_MetaTypeType T); cbn; [discriminate |].
    destruct (isa_FuncDecl D); [discriminate |].
    unfold cast_VarDecl. destruct (isa_VarDecl D); discriminate.
  - unfold OverloadedSubscriptExpr_createWithCopy. cbn.
    destruct Decls; discriminate.
Qed.

(** C1, amended.  For every candidate list of length exactly 1, none of the
    three constructors returns an overload-set node.  The name-reference
    constructor returns a [DeclRefExpr] whose type is the candidate's
    reference type.  The member-reference constructor, when it returns,
    returns a [MemberRefExpr] whose type is the candidate's reference type,
    or a [DotSyntaxCallExpr] or [DotSyntaxBaseIgnoredExpr] built over a
    [DeclRefExpr] of the candidate whose type is the candidate's reference
    type.  The subscript constructor returns a [SubscriptExpr] over the
    receiver and the index. *)
Theorem collapse_single_candidate (D : ValueDecl) :
  (forall Loc,
      OverloadedDeclRefExpr_createWithCopy [D] Loc
      = Ok (DeclRefExpr D Loc (getTypeOfReference D))
      /\ isResolvedTo D (OverloadedDeclRefExpr_createWithCopy [D] Loc))
  /\ (forall Base DotLoc MemberLoc e,
      OverloadedMemberRefExpr_createWithCopy Hdr Base DotLoc [D] MemberLoc = Ok e ->
      isOverloadSet e = false
      /\ let Fn := DeclRefExpr D MemberLoc (getTypeOfReference D) in
         (e = MemberRefExpr Base D DotLoc MemberLoc (getTypeOfReference D)
            /\ getType e = getTypeOfReference D)
         \/ ((exists Ty, e = ApplyExpr (DotSyntaxCall DotLoc) Fn Base Ty)
             /\ getType Fn = getTypeOfReference D)
         \/ ((exists Ty, e = DotSyntaxBaseIgnoredExpr Base DotLoc Fn Ty)
             /\ getType Fn = getTypeOfReference D))
  /\ (forall Base LBracketLoc Index RBracketLoc,
      exists e D' Ty,
        OverloadedSubscriptExpr_createWithCopy Hdr Base [D] LBracketLoc Index RBracketLoc
        = Ok e
        /\ e = SubscriptExpr D' (mkRange LBracketLoc RBracketLoc) Base Index Ty
        /\ isOverloadSet e = false).
Proof.
  split; [| split].
  - intros Loc. split; [reflexivity |].
    eexists. repeat split.
  - intros Base DotLoc MemberLoc e.
    unfold OverloadedMemberRefExpr_createWithCopy. cbn.
    destruct (isInstanceMember D); cbn.
    + destruct (getType Base) as [T |]; cbn; [| discriminate].
      destruct (is_MetaTypeType T); cbn.
      * intros [= <-]. split; [reflexivity |]. right. right. split; [eexists |]; reflexivity.
      * destruct (isa_FuncDecl D).
        -- intros [= <-]. split; [reflexivity |]. right. left.
           split; [eexists |]; reflexivity.
        -- unfold cast_VarDecl. destruct (isa_VarDecl D); cbn; [| discriminate].
           intros [= <-]. split; [reflexivity |]. left. split; reflexivity.
    + intros [= <-]. split; [reflexivity |]. right. right. split; [eexists |]; reflexivity.
  - intros. do 3 eexists. repeat split.
Qed.
End CollapseProperties.

Lemma collapse_single_candidate_witness :
  OverloadedMemberRefExpr_createWithCopy Hdr0 expr_p (loc 11) [decl_x] (loc 12)
  = Ok (MemberRefExpr expr_p decl_x (loc 11) (loc 12) (getTypeOfReference decl_x))
  /\ isOverloadSet
       (MemberRefExpr expr_p decl_x (loc 11) (loc 12) (getTypeOfReference decl_x))
     = false.
Proof.
  split; [reflexivity |].
  exact (proj1 (proj1 (proj2 (collapse_single_candidate Hdr0 decl_x))
                  expr_p (loc 11) (loc 12) _ eq_refl)).
Defined.

(** The claim as the specification states it fails on the subscript
    constructor: the node it builds for a single candidate gets the type
    that the [SubscriptExpr] constructor derives from its own declaration
    argument, which the call leaves to its default, so that it cannot be the
    reference type both of a subscript into [Int32] and of one into [Bool],
    whatever the header's default is. *)
Lemma collapse_single_candidate_counterexample :
  ~ exists Hdr : ExprHeader,
      isResolvedTo decl_subscript_int
        (OverloadedSubscriptExpr_createWithCopy Hdr expr_p [decl_subscript_int]
           (loc 11) expr_i (loc 13))
      /\ isResolvedTo decl_subscript_bool
        (OverloadedSubscriptExpr_createWithCopy Hdr expr_p [decl_subscript_bool]
           (loc 11) expr_i (loc 13)).
Proof.
  intros (Hdr & (e1 & H1 & _ & T1) & (e2 & H2 & _ & T2)).
  cbv in H1, H2.
  injection H1 as <-. injection H2 as <-.
  cbn in T1, T2. rewrite T1 in T2. discriminate T2.
Qed.

(** With the declaration argument defaulted to null the node has no type. *)
Example subscript_collapse_untyped_example :
  OverloadedSubscriptExpr_createWithCopy Hdr0 expr_p [decl_subscript_int]
    (loc 11) expr_i (loc 13)
  = Ok (SubscriptExpr None (mkRange (loc 11) (loc 13)) expr_p expr_i None)
  /\ getTypeOfReference decl_subscript_int = Some (BuiltinIntegerType 32).
Proof. split; reflexivity. Qed.

Lemma collapse_many_candidates_witness :
  isOverloadSetOver [decl_norm; decl_origin; decl_x]
    (OverloadedDeclRefExpr_createWithCopy [decl_norm; decl_origin; decl_x] (loc 20))
  /\ isOverloadSetOver [decl_norm; decl_x]
    (OverloadedMemberRefExpr_createWithCopy Hdr0 expr_p (loc 11) [decl_norm; decl_x] (loc 12))
  /\ isOverloadSetOver [decl_subscript_int; decl_subscript_bool]
    (OverloadedSubscriptExpr_createWithCopy Hdr0 expr_p
       [decl_subscript_int; decl_subscript_bool] (loc 11) expr_i (loc 13)).
Proof.
  split; [| split].
  - apply (proj1 (collapse_many_candidates Hdr0 3 [decl_norm; decl_origin; decl_x]
                    eq_refl (le_S 2 2 (le_n 2)))).
  - apply (proj1 (proj2 (collapse_many_candidates Hdr0 2 [decl_norm; decl_x]
                    eq_refl (le_n 2)))).
  - apply (proj2 (proj2 (collapse_many_candidates Hdr0 2
                    [decl_subscript_int; decl_subscript_bool] eq_refl (le_n 2)))).
Defined.

Lemma member_collapse_cases_witness :
  let r D B := OverloadedMemberRefExpr_createWithCopy Hdr0 B (loc 11) [D] (loc 12) in
  let Fn D := DeclRefExpr D (loc 12) (getTypeOfReference D) in
  r decl_origin expr_untyped
    = Ok (DotSyntaxBaseIgnoredExpr expr_untyped (loc 11) (Fn decl_origin)
            (getTypeOfReference decl_origin))
  /\ r decl_x expr_Point
    = Ok (DotSyntaxBaseIgnoredExpr expr_Point (loc 11) (Fn decl_x)
            (getTypeOfReference decl_x))
  /\ r decl_norm expr_p
    = Ok (ApplyExpr (DotSyntaxCall (loc 11)) (Fn decl_norm) expr_p None)
  /\ r decl_x expr_p
    = Ok (MemberRefExpr expr_p decl_x (loc 11) (loc 12) (getTypeOfReference decl_x)).
Proof.
  cbv zeta. split; [| split; [| split]].
  - apply (proj1 (member_collapse_cases Hdr0
                    expr_untyped (loc 11) decl_origin (loc 12))).
    reflexivity.
  - apply (proj1 (proj2 (member_collapse_cases Hdr0
                    expr_Point (loc 11) decl_x (loc 12))) (MetaTypeType "Point"));
      reflexivity.
  - apply (proj1 (proj2 (proj2 (member_collapse_cases Hdr0
                    expr_p (loc 11) decl_norm (loc 12)))) (NominalType "Point"));
      reflexivity.
  - apply (proj2 (proj2 (proj2 (member_collapse_cases Hdr0
                    expr_p (loc 11) decl_x (loc 12)))) (NominalType "Point"));
      reflexivity.
Defined.

(** The claim as the specification states it fails on a receiver that has
    no type yet: for the instance function [norm] the receiver's type is not
    a metatype, so that the claim promises a dot-syntax call, but the
    constructor reads the receiver's type to tell, and stops.  This holds
    whatever the header gives the nodes as types. *)
Lemma member_collapse_cases_counterexample :
  ~ exists Hdr : ExprHeader,
      memberCollapseAsStated Hdr expr_untyped (loc 11) decl_norm (loc 12).
Proof.
  intros (Hdr & _ & H & _).
  destruct H as [Ty H]; try reflexivity.
  - intros (T & HT & _). discriminate HT.
  - discriminate H.
Qed.

(** ** Source range of a tuple *)

Section TupleRangeProperties.
Variables getStartLoc getEndLoc : Expr -> Result SourceLoc.

(** C8, amended.  For every tuple node on which [getSourceRange] returns a
    range: either its left and right delimiter locations are both valid and
    the range is exactly the span between them, or its left delimiter
    location is invalid, it has exactly two elements, and the range runs from
    the start of the first element to the end of the second, its last.  The
    query returns in exactly these two cases (the children giving their
    locations); a valid left delimiter with an invalid right one, and an
    invalid left delimiter on a node that has not exactly two elements, stop
    on an assertion. *)
Theorem TupleExpr_getSourceRange_spec
    (LParenLoc : SourceLoc) (SubExprs : list (option Expr)) (RParenLoc : SourceLoc) :
  let range := TupleExpr_getSourceRange getStartLoc getEndLoc LParenLoc SubExprs RParenLoc in
  (forall r, range = Ok r ->
     (isValid LParenLoc = true /\ isValid RParenLoc = true
      /\ r = mkRange LParenLoc RParenLoc)
     \/ (isValid LParenLoc = false
         /\ exists E0 E1 S E,
              SubExprs = [Some E0; Some E1]
              /\ firstChild SubExprs = Some E0 /\ lastChild SubExprs = Some E1
              /\ getStartLoc E0 = Ok S /\ getEndLoc E1 = Ok E
              /\ r = mkRange S E))
  /\ (isValid LParenLoc = true -> isValid RParenLoc = true ->
      range = Ok (mkRange LParenLoc RParenLoc))
  /\ (forall E0 E1 S E,
      isValid LParenLoc = false -> SubExprs = [Some E0; Some E1] ->
      getStartLoc E0 = Ok S -> getEndLoc E1 = Ok E ->
      range = Ok (mkRange S E))
  /\ (isValid LParenLoc = true -> isValid RParenLoc = false ->
      range = Abort (AssertionFailure "Mismatched parens?"))
  /\ (isValid LParenLoc = false -> List.length SubExprs <> 2 ->
      range = Abort (AssertionFailure "Unexpected tuple expr")).
Proof.
  cbv zeta. unfold TupleExpr_getSourceRange.
  split; [| split; [| split; [| split]]].
  - intros r. destruct (isValid LParenLoc).
    + destruct (isValid RParenLoc); cbn; [| discriminate].
      intros [= <-]. left. repeat split.
    + destruct SubExprs as [| p0 [| p1 [| p2 l]]]; cbn; try discriminate.
      destruct p0 as [E0 |]; cbn; [| discriminate].
      destruct (getStartLoc E0) as [S |] eqn:HS; cbn; [| discriminate].
      destruct p1 as [E1 |]; cbn; [| discriminate].
      destruct (getEndLoc E1) as [E |] eqn:HE; cbn; [| discriminate].
      intros [= <-]. right. split; [reflexivity |].
      exists E0, E1, S, E. repeat split; assumption.
  - intros -> ->. reflexivity.
  - intros E0 E1 S E -> -> HS HE. cbn. rewrite HS. cbn. rewrite HE. reflexivity.
  - intros -> ->. reflexivity.
  - intros -> HN. destruct SubExprs as [| p0 [| p1 [| p2 l]]]; cbn; try reflexivity.
    now contradiction HN.
Qed.
End TupleRangeProperties.

Lemma TupleExpr_getSourceRange_spec_witness :
  TupleExpr_getSourceRange leaf_getLoc leaf_getLoc (loc 1) [Some expr_p] (loc 9)
    = Ok (mkRange (loc 1) (loc 9))
  /\ TupleExpr_getSourceRange leaf_getLoc leaf_getLoc SourceLoc_default
       [Some expr_p; Some expr_i] SourceLoc_default
     = Ok (mkRange (loc 10) (loc 12))
  /\ TupleExpr_getSourceRange leaf_getLoc leaf_getLoc (loc 1) [Some expr_p] SourceLoc_default
     = Abort (AssertionFailure "Mismatched parens?")
  /\ TupleExpr_getSourceRange leaf_getLoc leaf_getLoc SourceLoc_default
       [Some expr_p] SourceLoc_default
     = Abort (AssertionFailure "Unexpected tuple expr").
Proof.
  split; [| split; [| split]].
  - apply (proj1 (proj2 (TupleExpr_getSourceRange_spec leaf_getLoc leaf_getLoc
                           (loc 1) [Some expr_p] (loc 9))));
      reflexivity.
  - apply (proj1 (proj2 (proj2 (TupleExpr_getSourceRange_spec leaf_getLoc leaf_getLoc
                           SourceLoc_default [Some expr_p; Some expr_i] SourceLoc_default)))
             expr_p expr_i);
      reflexivity.
  - apply (proj1 (proj2 (proj2 (proj2 (TupleExpr_getSourceRange_spec leaf_getLoc
                           leaf_getLoc (loc 1) [Some expr_p] SourceLoc_default)))));
      reflexivity.
  - apply (proj2 (proj2 (proj2 (proj2 (TupleExpr_getSourceRange_spec leaf_getLoc
                           leaf_getLoc SourceLoc_default [Some expr_p] SourceLoc_default)))));
      [reflexivity | discriminate].
Defined.

(** The invariant as the specification states it fails on a tuple of three
    elements without delimiters: its first and last children have locations,
    yet the query stops on [Unexpected tuple expr] and gives no range,
    whatever the children's location functions are. *)
Lemma delimiterInvariant_counterexample :
  ~ exists getStartLoc getEndLoc : Expr -> Result SourceLoc,
      delimiterInvariant getStartLoc getEndLoc
        SourceLoc_default [Some expr_p; Some expr_i; Some expr_p] SourceLoc_default.
Proof.
  intros (gs & ge & [(HL & _) | (_ & _ & E0 & En & S & E & _ & _ & _ & _ & H)]).
  - discriminate HL.
  - discriminate H.
Qed.

(** ** Value of an integer literal *)

(** C9. An integer literal whose type is the 32-bit builtin integer type
    has the value 42 when its spelling is "42" and when its spelling is
    "0x2A", the radix (ten, sixteen) being inferred from the spelling; the
    value is a function of the node alone, so that deriving it again gives
    the same value. *)
Theorem IntegerLiteralExpr_getValue_42 (Loc : SourceLoc) :
  getValue (IntegerLiteralExpr "42" Loc Int32Ty) = Ok (mkAPInt 32 42)
  /\ getValue (IntegerLiteralExpr "0x2A" Loc Int32Ty) = Ok (mkAPInt 32 42)
  /\ fst (GetAutoSenseRadix "42") = 10%N
  /\ fst (GetAutoSenseRadix "0x2A") = 16%N
  /\ (forall e v1 v2, getValue e = v1 -> getValue e = v2 -> v1 = v2).
Proof.
  repeat split.
  intros e v1 v2 <- <-. reflexivity.
Qed.

(** ** Anonymous closure arguments *)

Example Twine_unsigned_examples :
  Twine_unsigned 0 = "0" /\ Twine_unsigned 7 = "7" /\ Twine_unsigned 10 = "10"
  /\ Twine_unsigned 4294967295 = "4294967295".
Proof. repeat split. Qed.

Lemma GenerateVarDecls_loop this NumDecls Decls Context :
  GenerateVarDecls this NumDecls Decls Context =
  if (N.of_nat (List.length Decls) <=? NumDecls)%N
  then GenerateVarDecls this NumDecls
         (fst (GenerateVarDecls_body this Decls Context))
         (snd (GenerateVarDecls_body this Decls Context))
  else (Decls, Context).
Proof.
  funelim (GenerateVarDecls this NumDecls Decls Context); rewrite e; reflexivity.
Qed.

Lemma GenerateVarDecls_body_fst this NumDecls Decls Context :
  (NumDecls < 2 ^ 32)%N ->
  (N.of_nat (List.length Decls) <= NumDecls)%N ->
  fst (GenerateVarDecls_body this Decls Context)
  = Decls ++ [anonymousArg this (List.length Decls)].
Proof.
  intros Hw Hle. unfold GenerateVarDecls_body, getIdentifier, anonymousArg, to_unsigned.
  rewrite N.mod_small by lia.
  destruct (existsb _ _); reflexivity.
Qed.

Lemma GenerateVarDecls_fst this NumDecls :
  (NumDecls < 2 ^ 32)%N ->
  forall k Decls Context,
    k = N.to_nat NumDecls + 1 - List.length Decls ->
    fst (GenerateVarDecls this NumDecls Decls Context)
    = Decls ++ map (anonymousArg this) (seq (List.length Decls) k).
Proof.
  intros Hw k. induction k as [| k IH]; intros Decls Context Hk.
  - rewrite GenerateVarDecls_loop.
    replace (N.of_nat (List.length Decls) <=? NumDecls)%N with false
      by (symmetry; apply N.leb_gt; lia).
    cbn. now rewrite app_nil_r.
  - assert (Hle : (N.of_nat (List.length Decls) <= NumDecls)%N) by lia.
    rewrite GenerateVarDecls_loop.
    replace (N.of_nat (List.length Decls) <=? NumDecls)%N with true
      by (symmetry; apply N.leb_le; exact Hle).
    pose proof (GenerateVarDecls_body_fst this NumDecls Decls Context Hw Hle) as Hb.
    rewrite IH.
    + rewrite Hb, length_app, <- app_assoc. cbn.
      now rewrite Nat.add_1_r.
    + rewrite Hb, length_app. cbn. lia.
Qed.

(** C10. For every call of [GenerateVarDecls(NumDecls, Decls, Context)]:
    if [Decls] has more than [NumDecls] entries it is left unchanged;
    otherwise entries are appended to it until it has exactly
    [NumDecls + 1] entries, and each appended declaration, at index [i], is
    named "$" followed by the decimal rendering of [i]. *)
Theorem GenerateVarDecls_spec
    (this : DeclContext) (NumDecls : N) (Decls : list VarDecl) (Context : ASTContext) :
  (NumDecls < 2 ^ 32)%N ->
  let Decls' := fst (GenerateVarDecls this NumDecls Decls Context) in
  (N.to_nat NumDecls < List.length Decls -> Decls' = Decls)
  /\ (List.length Decls <= N.to_nat NumDecls ->
      (exists appended, Decls' = Decls ++ appended)
      /\ List.length Decls' = N.to_nat NumDecls + 1
      /\ forall i, List.length Decls <= i <= N.to_nat NumDecls ->
           exists var, nth_error Decls' i = Some var
             /\ VarDecl_Name var = ("$" ++ Twine_unsigned (N.of_nat i))%string).
Proof.
  intros Hw Decls'. subst Decls'.
  rewrite (GenerateVarDecls_fst this NumDecls Hw _ Decls Context eq_refl).
  split.
  - intros Hgt.
    replace (N.to_nat NumDecls + 1 - List.length Decls) with 0 by lia.
    cbn. now rewrite app_nil_r.
  - intros Hle. split; [eexists; reflexivity | split].
    + rewrite length_app, length_map, length_seq. lia.
    + intros i Hi. exists (anonymousArg this i). split; [| reflexivity].
      rewrite nth_error_app2 by lia.
      rewrite nth_error_map.
      rewrite nth_error_seq.
      replace (i - List.length Decls <? N.to_nat NumDecls + 1 - List.length Decls)%nat
        with true by (symmetry; apply Nat.ltb_lt; lia).
      cbn. f_equal. f_equal. lia.
Qed.

Lemma GenerateVarDecls_spec_witness :
  map VarDecl_Name
    (fst (GenerateVarDecls 7%N 2%N [anonymousArg 7%N 0] (mkASTContext ["$0"])))
  = ["$0"; "$1"; "$2"]
  /\ List.length
       (fst (GenerateVarDecls 7%N 2%N [anonymousArg 7%N 0] (mkASTContext ["$0"])))
     = 3.
Proof.
  split; [reflexivity |].
  exact (proj1 (proj2 (proj2 (GenerateVarDecls_spec 7%N 2%N [anonymousArg 7%N 0]
                                (mkASTContext ["$0"]) eq_refl)
                         (le_S 1 1 (le_n 1))))).
Defined.

(** The two stopping inputs of the single-candidate member collapse, on the
    reference data: the property [x] on an untyped receiver, and the oneof
    element [none], an instance member that is neither function nor
    variable, on [p]. *)
Example member_collapse_stops_examples :
  OverloadedMemberRefExpr_createWithCopy Hdr0 expr_untyped (loc 11) [decl_x] (loc 12)
  = Abort NullDereference
  /\ OverloadedMemberRefExpr_createWithCopy Hdr0 expr_p (loc 11) [decl_none] (loc 12)
     = Abort (BadCast "VarDecl").
Proof.
  split.
  - apply (proj1 (member_collapse_stops Hdr0
                    expr_untyped (loc 11) decl_x (loc 12) eq_refl)).
    reflexivity.
  - apply (proj2 (member_collapse_stops Hdr0
                    expr_p (loc 11) decl_none (loc 12) eq_refl) (NominalType "Point"));
      reflexivity.
Qed.

(** * Further properties of Expr.cpp *)

(** ** Overload sets: base type and filtering *)

(** X1. [getBaseType] reports a type exactly for an overloaded member
    reference whose receiver has a type that is not a metatype, and then
    reports the receiver's type: a metatype is never a base type, and an
    overloaded name reference has none. *)
Theorem OverloadSetRefExpr_getBaseType_Some (this : Expr) (T : TypeBase) :
  OverloadSetRefExpr_getBaseType this = Ok (Some T)
  <-> exists Base DotLoc Decls MemberLoc Ty,
        this = OverloadedMemberRefExpr Base DotLoc Decls MemberLoc Ty
        /\ getType Base = Some T /\ is_MetaTypeType T = false.
Proof.
  split.
  - destruct this; cbn; try discriminate.
    destruct (getType this) as [T' |] eqn:HT; cbn; [| discriminate].
    destruct (is_MetaTypeType T') eqn:HM; [discriminate |].
    intros [= ->]. do 5 eexists. repeat split; assumption.
  - intros (Base & DotLoc & Decls & MemberLoc & Ty & -> & HT & HM).
    cbn. rewrite HT. cbn. rewrite HM. reflexivity.
Qed.

Lemma createFilteredWithCopy_many Hdr this D1 D2 Decls :
  OverloadSetRefExpr_createFilteredWithCopy Hdr this (D1 :: D2 :: Decls)
  = match this with
    | OverloadedDeclRefExpr _ Loc _ =>
        Ok (OverloadedDeclRefExpr (D1 :: D2 :: Decls) Loc UnstructuredDependentType_get)
    | OverloadedMemberRefExpr Base DotLoc _ MemberLoc _ =>
        Ok (OverloadedMemberRefExpr Base DotLoc (D1 :: D2 :: Decls) MemberLoc
              UnstructuredDependentType_get)
    | _ => Abort (Unreachable "Unhandled overloaded set reference expression")
    end.
Proof.
  destruct this; try reflexivity; cbn -[AllocateCopy].
  - unfold OverloadedDeclRefExpr_createWithCopy. cbn -[AllocateCopy].
    now rewrite AllocateCopy_eq.
  - unfold OverloadedMemberRefExpr_createWithCopy. cbn -[AllocateCopy].
    now rewrite AllocateCopy_eq.
Qed.

(** X2. Filtering an overload set that a collapse constructor has just
    built for two or more candidates by all of its own candidates builds the
    same node again. *)
Theorem createFilteredWithCopy_own_decls
    (Hdr : ExprHeader) (Decls : list ValueDecl) (e : Expr) :
  2 <= List.length Decls ->
  ((exists Loc, OverloadedDeclRefExpr_createWithCopy Decls Loc = Ok e)
   \/ (exists Base DotLoc MemberLoc,
         OverloadedMemberRefExpr_createWithCopy Hdr Base DotLoc Decls MemberLoc = Ok e)) ->
  OverloadSetRefExpr_createFilteredWithCopy Hdr e (getDecls e) = Ok e.
Proof.
  intros HN H.
  destruct Decls as [| D1 [| D2 Decls]]; cbn in HN; try lia.
  destruct H as [(Loc & H) | (Base & DotLoc & MemberLoc & H)].
  - rewrite OverloadedDeclRefExpr_createWithCopy_copy in H.
    injection H as <-. cbn [getDecls].
    now rewrite createFilteredWithCopy_many.
  - rewrite OverloadedMemberRefExpr_createWithCopy_copy in H.
    injection H as <-. cbn [getDecls].
    now rewrite createFilteredWithCopy_many.
Qed.

Lemma createFilteredWithCopy_own_decls_witness :
  OverloadSetRefExpr_createFilteredWithCopy Hdr0
    (OverloadedMemberRefExpr expr_p (loc 11) [decl_norm; decl_x] (loc 12)
       UnstructuredDependentType_get)
    [decl_norm; decl_x]
  = Ok (OverloadedMemberRefExpr expr_p (loc 11) [decl_norm; decl_x] (loc 12)
          UnstructuredDependentType_get).
Proof.
  exact (createFilteredWithCopy_own_decls Hdr0 [decl_norm; decl_x] _ (le_n 2)
           (or_intror (ex_intro _ expr_p (ex_intro _ (loc 11)
              (ex_intro _ (loc 12) eq_refl))))).
Defined.

(** X3. Filtering composes: after narrowing an overload set to a list of
    two or more candidates, a second filter gives what that second filter
    gives on the original node; receiver and locations are carried over and
    the candidates of the intermediate set play no part. *)
Theorem createFilteredWithCopy_twice
    (Hdr : ExprHeader) (this e1 : Expr) (Decls1 Decls2 : list ValueDecl) :
  2 <= List.length Decls1 ->
  OverloadSetRefExpr_createFilteredWithCopy Hdr this Decls1 = Ok e1 ->
  OverloadSetRefExpr_createFilteredWithCopy Hdr e1 Decls2
  = OverloadSetRefExpr_createFilteredWithCopy Hdr this Decls2.
Proof.
  intros HN H.
  destruct Decls1 as [| D1 [| D2 Decls1]]; cbn in HN; try lia.
  rewrite createFilteredWithCopy_many in H.
  destruct this; try discriminate H; injection H as <-; reflexivity.
Qed.

Lemma createFilteredWithCopy_twice_witness :
  OverloadSetRefExpr_createFilteredWithCopy Hdr0
    (OverloadedDeclRefExpr [decl_norm; decl_x] (loc 20) UnstructuredDependentType_get)
    [decl_x]
  = OverloadSetRefExpr_createFilteredWithCopy Hdr0
      (OverloadedDeclRefExpr [decl_norm; decl_origin; decl_x] (loc 20) None) [decl_x].
Proof.
  exact (createFilteredWithCopy_twice Hdr0
           (OverloadedDeclRefExpr [decl_norm; decl_origin; decl_x] (loc 20) None)
           _ [decl_norm; decl_x] [decl_x] (le_n 2) eq_refl).
Defined.

(** X4. Filtering an overload set by the empty candidate list stops on
    the assertion of the collapse constructor and yields no node.  Filtering
    it down to a single candidate yields a node that is no longer an
    overload set and holds no candidate list; for an overloaded name
    reference it is the resolved reference to that candidate, at the
    location of the overload set. *)
Theorem createFilteredWithCopy_collapsed (Hdr : ExprHeader) :
  (forall Decls0 Loc Ty,
      OverloadSetRefExpr_createFilteredWithCopy Hdr (OverloadedDeclRefExpr Decls0 Loc Ty) []
      = Abort (AssertionFailure "Cannot create a decl ref with an empty list of decls"))
  /\ (forall Base DotLoc Decls0 MemberLoc Ty,
      OverloadSetRefExpr_createFilteredWithCopy Hdr
        (OverloadedMemberRefExpr Base DotLoc Decls0 MemberLoc Ty) []
      = Abort (AssertionFailure "Cannot create an overloaded member ref with no decls"))
  /\ (forall Decls0 Loc Ty D,
      OverloadSetRefExpr_createFilteredWithCopy Hdr (OverloadedDeclRefExpr Decls0 Loc Ty) [D]
      = Ok (DeclRefExpr D Loc (getTypeOfReference D)))
  /\ (forall this D e1,
      OverloadSetRefExpr_createFilteredWithCopy Hdr this [D] = Ok e1 ->
      isOverloadSet e1 = false /\ getDecls e1 = []).
Proof.
  split; [| split; [| split]]; try (intros; reflexivity).
  intros this D e1.
  destruct this; try discriminate; cbn.
  - intros [= <-]. split; reflexivity.
  - unfold OverloadedMemberRefExpr_createWithCopy. cbn.
    destruct (isInstanceMember D); cbn.
    + destruct (getType this) as [T |]; cbn; [| discriminate].
      destruct (is_MetaTypeType T); cbn.
      * intros [= <-]. split; reflexivity.
      * destruct (isa_FuncDecl D).
        -- intros [= <-]. split; reflexivity.
        -- unfold cast_VarDecl. destruct (isa_VarDecl D); cbn; [| discriminate].
           intros [= <-]. split; reflexivity.
    + intros [= <-]. split; reflexivity.
Qed.

Lemma createFilteredWithCopy_collapsed_witness :
  isOverloadSet (MemberRefExpr expr_p decl_x (loc 11) (loc 12) (getTypeOfReference decl_x))
  = false
  /\ getDecls (MemberRefExpr expr_p decl_x (loc 11) (loc 12) (getTypeOfReference decl_x))
     = [].
Proof.
  exact (proj2 (proj2 (proj2 (createFilteredWithCopy_collapsed Hdr0)))
           (OverloadedMemberRefExpr expr_p (loc 11) [decl_norm; decl_x] (loc 12) None)
           decl_x _ eq_refl).
Defined.

(** X20. Filtering an overload set to two or more candidates keeps its
    base type: the receiver is carried over to the new node. *)
Theorem createFilteredWithCopy_getBaseType
    (Hdr : ExprHeader) (this e1 : Expr) (Decls : list ValueDecl) :
  2 <= List.length Decls ->
  OverloadSetRefExpr_createFilteredWithCopy Hdr this Decls = Ok e1 ->
  OverloadSetRefExpr_getBaseType e1 = OverloadSetRefExpr_getBaseType this.
Proof.
  intros HN H.
  destruct Decls as [| D1 [| D2 Decls]]; cbn in HN; try lia.
  rewrite createFilteredWithCopy_many in H.
  destruct this; try discriminate H; injection H as <-; reflexivity.
Qed.

Lemma createFilteredWithCopy_getBaseType_witness :
  OverloadSetRefExpr_getBaseType
    (OverloadedMemberRefExpr expr_p (loc 11) [decl_norm; decl_x] (loc 12)
       UnstructuredDependentType_get)
  = OverloadSetRefExpr_getBaseType
      (OverloadedMemberRefExpr expr_p (loc 11) [decl_norm; decl_origin; decl_x] (loc 12)
         None).
Proof.
  exact (createFilteredWithCopy_getBaseType Hdr0
           (OverloadedMemberRefExpr expr_p (loc 11) [decl_norm; decl_origin; decl_x]
              (loc 12) None)
           _ [decl_norm; decl_x] (le_n 2) eq_refl).
Defined.

(** ** The called value of an application *)

(** The value test that stands for the pointer test [E != E2]. *)
Lemma getValueProvidingExpr_same (E : Expr) :
  getValueProvidingExpr E = E <-> isa_ParenExpr E = false.
Proof.
  unfold getValueProvidingExpr. split.
  - intros H. rewrite <- H. apply getSemanticsProvidingExpr_not_paren.
  - apply getSemanticsProvidingExpr_fixed.
Qed.

Lemma getCalledValue_strip (E : Expr) :
  getCalledValue E = dyn_cast_DeclRefExpr (getSemanticsProvidingExpr E).
Proof.
  funelim (getCalledValue E).
  - destruct E; try discriminate. cbn in *. congruence.
  - unfold getValueProvidingExpr in *.
    rewrite getSemanticsProvidingExpr_idempotent in H. exact H.
  - rewrite getSemanticsProvidingExpr_fixed by assumption. congruence.
Qed.

(** X5. The called value of a callee is the declaration of the resolved
    reference that remains once all parenthesizations around the callee are
    stripped, and none when what remains is any other node; stripping the
    callee or wrapping it in a parenthesization does not change it. *)
Theorem getCalledValue_spec (E : Expr) :
  getCalledValue E = dyn_cast_DeclRefExpr (getSemanticsProvidingExpr E)
  /\ getCalledValue (getSemanticsProvidingExpr E) = getCalledValue E
  /\ (forall L R Ty, getCalledValue (ParenExpr L E R Ty) = getCalledValue E).
Proof.
  split; [apply getCalledValue_strip | split].
  - rewrite !getCalledValue_strip.
    now rewrite getSemanticsProvidingExpr_idempotent.
  - intros L R Ty. rewrite !getCalledValue_strip. reflexivity.
Qed.

Lemma getCalledValue_parens ws E :
  getCalledValue (parens ws E) = getCalledValue E.
Proof.
  rewrite !getCalledValue_strip.
  induction ws as [| [[L R] Ty] ws IH]; cbn; [reflexivity | exact IH].
Qed.

(** X6. A call whose callee is, under any number of parentheses, the node
    of a name collapse calls the candidate when exactly one candidate was
    given, and has no called value when several were: an overload set is not
    a direct reference.  The dot-syntax call that the member collapse builds
    for a single instance function calls that function. *)
Theorem getCalledValue_of_collapse (Hdr : ExprHeader) :
  (forall Decls Loc Fn ws K Arg Ty,
      OverloadedDeclRefExpr_createWithCopy Decls Loc = Ok Fn ->
      ApplyExpr_getCalledValue (ApplyExpr K (parens ws Fn) Arg Ty)
      = Ok (match Decls with [D] => Some D | _ => None end))
  /\ (forall Base DotLoc D MemberLoc T,
      getType Base = Some T -> is_MetaTypeType T = false ->
      isInstanceMember D = true -> isa_FuncDecl D = true ->
      exists call,
        OverloadedMemberRefExpr_createWithCopy Hdr Base DotLoc [D] MemberLoc = Ok call
        /\ ApplyExpr_getCalledValue call = Ok (Some D)).
Proof.
  split.
  - intros Decls Loc Fn ws K Arg Ty H. cbn. rewrite getCalledValue_parens.
    destruct Decls as [| D1 [| D2 Decls]].
    + discriminate H.
    + injection H as <-. reflexivity.
    + rewrite OverloadedDeclRefExpr_createWithCopy_copy in H.
      injection H as <-. reflexivity.
  - intros Base DotLoc D MemberLoc T HT HM HI HF.
    unfold OverloadedMemberRefExpr_createWithCopy. cbn.
    rewrite HI, HT. cbn. rewrite HM. cbn. rewrite HF.
    eexists. split; reflexivity.
Qed.

Lemma getCalledValue_of_collapse_witness :
  ApplyExpr_getCalledValue
    (ApplyExpr Call
       (ParenExpr (loc 1) (DeclRefExpr decl_norm (loc 2) (getTypeOfReference decl_norm))
          (loc 3) None)
       expr_p None)
  = Ok (Some decl_norm)
  /\ exists call,
       OverloadedMemberRefExpr_createWithCopy Hdr0 expr_p (loc 11) [decl_norm] (loc 12)
       = Ok call
       /\ ApplyExpr_getCalledValue call = Ok (Some decl_norm).
Proof.
  split.
  - exact (proj1 (getCalledValue_of_collapse Hdr0) [decl_norm] (loc 2) _
             [(loc 1, loc 3, None)] Call expr_p None eq_refl).
  - exact (proj2 (getCalledValue_of_collapse Hdr0) expr_p (loc 11) decl_norm (loc 12)
             (NominalType "Point") eq_refl eq_refl eq_refl eq_refl).
Defined.

(** ** The body result type of a function expression *)

Lemma unsigned_pred_pos n :
  (1 <= n < 2 ^ 32)%N -> unsigned_pred n = (n - 1)%N.
Proof.
  intros H. unfold unsigned_pred, to_unsigned.
  replace (n + (2 ^ 32 - 1))%N with ((n - 1) + 1 * 2 ^ 32)%N by lia.
  rewrite N.Div0.mod_add. apply N.mod_small. lia.
Qed.

Lemma unsigned_pred_0 : unsigned_pred 0 = (2 ^ 32 - 1)%N.
Proof. reflexivity. Qed.

Lemma getBodyResultType_loop_arrows Inputs R :
  forall n, n = N.of_nat (List.length Inputs) -> (1 <= n < 2 ^ 32)%N ->
  getBodyResultType_loop (arrows Inputs R) n = Ok R.
Proof.
  induction Inputs as [| I Inputs IH]; intros n Hn Hr; cbn in Hn; [lia |].
  cbn [arrows fold_right getBodyResultType_loop].
  rewrite unsigned_pred_pos by exact Hr.
  destruct (n - 1 =? 0)%N eqn:E.
  - apply N.eqb_eq in E. destruct Inputs; [reflexivity | cbn in Hn; lia].
  - apply N.eqb_neq in E. apply IH; lia.
Qed.

(** X7. For a function expression with [n >= 1] parameter patterns whose
    type is the curried function type of [n] inputs, the body result type is
    what follows the [n]-th arrow, be it a function type itself or not. *)
Theorem FuncExpr_getBodyResultType_arrows
    (NumParams : N) (Inputs : list TypeBase) (R : TypeBase) :
  NumParams = N.of_nat (List.length Inputs) ->
  (1 <= NumParams < 2 ^ 32)%N ->
  FuncExpr_getBodyResultType NumParams (Some (arrows Inputs R)) = Ok (Some R).
Proof.
  intros Hn Hr. unfold FuncExpr_getBodyResultType, to_unsigned.
  rewrite N.mod_small by lia.
  now rewrite (getBodyResultType_loop_arrows Inputs R NumParams Hn Hr).
Qed.

Lemma FuncExpr_getBodyResultType_arrows_witness :
  let int := BuiltinIntegerType 32 in
  FuncExpr_getBodyResultType 1 (Some (FunctionType int (FunctionType int (FunctionType int int))))
    = Ok (Some (FunctionType int (FunctionType int int)))
  /\ FuncExpr_getBodyResultType 2
       (Some (FunctionType int (FunctionType int (FunctionType int int))))
     = Ok (Some (FunctionType int int)).
Proof.
  cbv zeta. split.
  - apply (FuncExpr_getBodyResultType_arrows 1 [BuiltinIntegerType 32]
             (FunctionType (BuiltinIntegerType 32)
                (FunctionType (BuiltinIntegerType 32) (BuiltinIntegerType 32))) eq_refl).
    split; [apply N.le_refl | reflexivity].
  - apply (FuncExpr_getBodyResultType_arrows 2
             [BuiltinIntegerType 32; BuiltinIntegerType 32]
             (FunctionType (BuiltinIntegerType 32) (BuiltinIntegerType 32)) eq_refl).
    split; [discriminate | reflexivity].
Defined.

Lemma getBodyResultType_loop_short Inputs R :
  isa_FunctionType R = false ->
  forall n, (n < 2 ^ 32)%N ->
  (N.of_nat (List.length Inputs) < (if (n =? 0)%N then 2 ^ 32 else n))%N ->
  getBodyResultType_loop (arrows Inputs R) n = Abort (BadCast "FunctionType").
Proof.
  intros HR. induction Inputs as [| I Inputs IH]; intros n Hn Hlt.
  - cbn. destruct R; try reflexivity. discriminate HR.
  - cbn [arrows fold_right getBodyResultType_loop].
    cbn [List.length] in Hlt.
    assert (Hmax : (2 ^ 32 - 1 =? 0)%N = false) by reflexivity.
    destruct (n =? 0)%N eqn:E.
    + apply N.eqb_eq in E. subst n. rewrite unsigned_pred_0, Hmax.
      apply IH; [reflexivity |]. rewrite Hmax. lia.
    + apply N.eqb_neq in E. rewrite unsigned_pred_pos by lia.
      assert (E' : (n - 1 =? 0)%N = false) by (apply N.eqb_neq; lia).
      rewrite E'. apply IH; [lia |]. rewrite E'. lia.
Qed.

(** X8. When the type of the function expression has fewer arrows than
    the loop takes turns, the query stops on the cast to [FunctionType].
    The loop tests [--n] after its first turn, so that for zero parameter
    patterns the counter wraps and the turns are 2^32: on a node without
    parameter patterns the query returns for no type that has fewer than
    2^32 arrows. *)
Theorem FuncExpr_getBodyResultType_short
    (NumParams : N) (Inputs : list TypeBase) (R : TypeBase) :
  (NumParams < 2 ^ 32)%N ->
  isa_FunctionType R = false ->
  (N.of_nat (List.length Inputs) < (if (NumParams =? 0)%N then 2 ^ 32 else NumParams))%N ->
  FuncExpr_getBodyResultType NumParams (Some (arrows Inputs R))
  = Abort (BadCast "FunctionType").
Proof.
  intros Hn HR Hlt. unfold FuncExpr_getBodyResultType, to_unsigned.
  rewrite N.mod_small by lia.
  now rewrite (getBodyResultType_loop_short Inputs R HR NumParams Hn Hlt).
Qed.

Lemma FuncExpr_getBodyResultType_short_witness :
  FuncExpr_getBodyResultType 0
    (Some (FunctionType (NominalType "Unit") (BuiltinIntegerType 32)))
  = Abort (BadCast "FunctionType").
Proof.
  exact (FuncExpr_getBodyResultType_short 0 [NominalType "Unit"] (BuiltinIntegerType 32)
           eq_refl eq_refl eq_refl).
Defined.

(** ** Construction of a function expression *)

Lemma store_app {A : Type} (l1 l2 : list A) (x v : A) (i : nat) :
  List.length l1 = i -> store (l1 ++ x :: l2) i v = l1 ++ v :: l2.
Proof.
  intros <-. induction l1 as [| y l1 IH]; cbn; [reflexivity | now rewrite IH].
Qed.

Lemma firstn_S_nth_error {A : Type} (l : list A) (k : nat) (x : A) :
  nth_error l k = Some x -> firstn (S k) l = firstn k l ++ [x].
Proof.
  revert l. induction k as [| k IH]; intros [| y l] H; try discriminate H.
  - injection H as ->. reflexivity.
  - change (y :: firstn (S k) l = y :: (firstn k l ++ [x])).
    f_equal. apply IH. exact H.
Qed.

Lemma getParamPatterns_map_Some (ps : list Pattern) :
  getParamPatterns (map Some ps) = Some ps.
Proof.
  induction ps as [| p ps IH]; cbn; [reflexivity | now rewrite IH].
Qed.

(** The loop invariant: after [k] turns the first [k] slots hold the first
    [k] patterns and the others are still unwritten. *)
Lemma FuncExpr_create_fill (params : list Pattern) (n k : nat) :
  k <= n -> n <= List.length params ->
  fold_left
    (fun (acc : Result (list (option Pattern))) (i : nat) =>
       buffer <- acc ;;
       p <- ArrayRef_index params i ;;
       Ok (store buffer i (Some p)))
    (seq 0 k) (Ok (repeat (@None Pattern) n))
  = Ok (map Some (firstn k params) ++ repeat None (n - k)).
Proof.
  intros Hk Hn. induction k as [| k IH].
  - cbn. now rewrite Nat.sub_0_r.
  - rewrite seq_S, fold_left_app, IH by lia. cbn [fold_left bind Nat.add].
    unfold ArrayRef_index.
    destruct (nth_error params k) as [p |] eqn:Hp.
    + cbn [bind].
      rewrite (firstn_S_nth_error _ _ _ Hp), map_app, <- app_assoc. cbn [map app].
      replace (n - k) with (S (n - S k)) by lia. cbn [repeat].
      f_equal. apply store_app.
      rewrite length_map, length_firstn. lia.
    + apply nth_error_None in Hp. lia.
Qed.

Lemma FuncExpr_create_eq funcLoc params fnType body :
  let nParams := to_unsigned (N.of_nat (List.length params)) in
  FuncExpr_create funcLoc params fnType body
  = Ok (FuncExpr funcLoc nParams body fnType,
        map Some (firstn (N.to_nat nParams) params)).
Proof.
  cbv zeta. unfold FuncExpr_create.
  assert (Hle : N.to_nat (to_unsigned (N.of_nat (List.length params)))
                <= List.length params).
  { unfold to_unsigned.
    pose proof (N.Div0.mod_le (N.of_nat (List.length params)) (2 ^ 32)). lia. }
  rewrite FuncExpr_create_fill by (try apply le_n; exact Hle).
  cbn. now rewrite Nat.sub_diag, app_nil_r.
Qed.

(** X9. A function expression created for fewer than 2^32 parameter
    patterns records their number, and its trailing buffer has one written
    slot per pattern, holding the patterns in the order given: reading the
    parameter patterns back gives the list the node was created from. *)
Theorem FuncExpr_create_params
    (funcLoc : SourceLoc) (params : list Pattern) (fnType : Type_) (body : BraceStmt) :
  (N.of_nat (List.length params) < 2 ^ 32)%N ->
  exists ParamsBuffer,
    FuncExpr_create funcLoc params fnType body
    = Ok (FuncExpr funcLoc (N.of_nat (List.length params)) body fnType, ParamsBuffer)
    /\ List.length ParamsBuffer = List.length params
    /\ getParamPatterns ParamsBuffer = Some params.
Proof.
  intros Hw. rewrite FuncExpr_create_eq. cbv zeta.
  unfold to_unsigned. rewrite N.mod_small by exact Hw.
  rewrite Nat2N.id, firstn_all.
  eexists. split; [reflexivity | split].
  - apply length_map.
  - apply getParamPatterns_map_Some.
Qed.

Lemma FuncExpr_create_params_witness :
  exists ParamsBuffer,
    FuncExpr_create (loc 1) [7; 8; 9]%N None (mkBraceStmt (loc 30))
    = Ok (FuncExpr (loc 1) 3 (mkBraceStmt (loc 30)) None, ParamsBuffer)
    /\ List.length ParamsBuffer = 3
    /\ getParamPatterns ParamsBuffer = Some [7; 8; 9]%N.
Proof.
  exact (FuncExpr_create_params (loc 1) [7; 8; 9]%N None (mkBraceStmt (loc 30)) eq_refl).
Defined.

(** ** Anonymous closure arguments: growth and numbering *)

Lemma seq_split_max (a k1 k2 k3 : nat) :
  k1 + k2 = k3 -> seq a k1 ++ seq (a + k1) k2 = seq a k3.
Proof.
  intros <-. symmetry. apply seq_app.
Qed.

(** X10. Generating up to [NumDecls1] and then up to [NumDecls2] leaves
    the list that generating up to the larger of the two gives; in
    particular a second call with the same or a smaller bound changes
    nothing. *)
Theorem GenerateVarDecls_twice
    (this : DeclContext) (NumDecls1 NumDecls2 : N) (Decls : list VarDecl)
    (Context1 Context2 Context3 : ASTContext) :
  (NumDecls1 < 2 ^ 32)%N -> (NumDecls2 < 2 ^ 32)%N ->
  fst (GenerateVarDecls this NumDecls2
         (fst (GenerateVarDecls this NumDecls1 Decls Context1)) Context2)
  = fst (GenerateVarDecls this (N.max NumDecls1 NumDecls2) Decls Context3).
Proof.
  intros H1 H2.
  assert (H3 : (N.max NumDecls1 NumDecls2 < 2 ^ 32)%N) by lia.
  rewrite (GenerateVarDecls_fst this NumDecls1 H1 _ Decls Context1 eq_refl).
  rewrite (GenerateVarDecls_fst this NumDecls2 H2 _ _ Context2 eq_refl).
  rewrite (GenerateVarDecls_fst this _ H3 _ Decls Context3 eq_refl).
  rewrite <- app_assoc, <- map_app. f_equal. f_equal.
  rewrite length_app, length_map, length_seq.
  apply seq_split_max. lia.
Qed.

Lemma GenerateVarDecls_twice_witness :
  fst (GenerateVarDecls 7%N 1%N
         (fst (GenerateVarDecls 7%N 3%N [] (mkASTContext []))) (mkASTContext []))
  = fst (GenerateVarDecls 7%N 3%N [] (mkASTContext [])).
Proof.
  exact (GenerateVarDecls_twice 7%N 3%N 1%N [] (mkASTContext []) (mkASTContext [])
           (mkASTContext []) eq_refl eq_refl).
Defined.

(** X11. The numbering is an invariant: when every entry [i] of [Decls]
    is the anonymous argument of index [i], the same holds of the list after
    the call, which has [max (length Decls) (NumDecls + 1)] entries; started
    on the empty list, the function builds the arguments [$0 .. $NumDecls]. *)
Theorem GenerateVarDecls_numbered
    (this : DeclContext) (NumDecls : N) (len : nat) (Context : ASTContext) :
  (NumDecls < 2 ^ 32)%N ->
  fst (GenerateVarDecls this NumDecls (map (anonymousArg this) (seq 0 len)) Context)
  = map (anonymousArg this) (seq 0 (Nat.max len (N.to_nat NumDecls + 1))).
Proof.
  intros Hw.
  rewrite (GenerateVarDecls_fst this NumDecls Hw _ _ Context eq_refl).
  rewrite <- map_app, length_map, length_seq. f_equal.
  apply (seq_split_max 0). lia.
Qed.

Lemma GenerateVarDecls_numbered_witness :
  map VarDecl_Name (fst (GenerateVarDecls 7%N 2%N [anonymousArg 7%N 0] (mkASTContext [])))
  = map VarDecl_Name (map (anonymousArg 7%N) [0; 1; 2]).
Proof.
  exact (f_equal (map VarDecl_Name)
           (GenerateVarDecls_numbered 7%N 2%N 1 (mkASTContext []) eq_refl)).
Defined.

Lemma Twine_unsigned_inj (a b : N) :
  Twine_unsigned a = Twine_unsigned b -> a = b.
Proof.
  unfold Twine_unsigned. intros H.
  apply DecimalN.Unsigned.to_uint_inj.
  assert (Hn : forall n, N.to_uint n <> Decimal.Nil).
  { intros n Hnil. pose proof (DecimalN.Unsigned.to_of (N.to_uint n)) as Hto.
    rewrite DecimalN.Unsigned.of_to, Hnil in Hto. discriminate Hto. }
  pose proof (NilZero.usu _ (Hn a)) as Ha.
  pose proof (NilZero.usu _ (Hn b)) as Hb.
  rewrite H in Ha. congruence.
Qed.

Lemma anonymousArg_name_inj (this : DeclContext) (i j : nat) :
  VarDecl_Name (anonymousArg this i) = VarDecl_Name (anonymousArg this j) -> i = j.
Proof.
  cbn. intros [= H]. apply Twine_unsigned_inj in H. lia.
Qed.

(** X12. The declarations that the function appends have pairwise
    distinct names, each different from the name of every appended
    declaration of another index. *)
Theorem GenerateVarDecls_names_distinct
    (this : DeclContext) (NumDecls : N) (Decls : list VarDecl) (Context : ASTContext) :
  (NumDecls < 2 ^ 32)%N ->
  exists appended,
    fst (GenerateVarDecls this NumDecls Decls Context) = Decls ++ appended
    /\ NoDup (map VarDecl_Name appended).
Proof.
  intros Hw.
  rewrite (GenerateVarDecls_fst this NumDecls Hw _ Decls Context eq_refl).
  eexists. split; [reflexivity |].
  rewrite map_map.
  apply Finite.Injective_map_NoDup.
  - intros i j. apply (anonymousArg_name_inj this).
  - apply seq_NoDup.
Qed.

Lemma GenerateVarDecls_names_distinct_witness :
  exists appended,
    fst (GenerateVarDecls 7%N 11%N [] (mkASTContext [])) = [] ++ appended
    /\ NoDup (map VarDecl_Name appended).
Proof.
  exact (GenerateVarDecls_names_distinct 7%N 11%N [] (mkASTContext []) eq_refl).
Defined.

(** ** The value of an integer literal: width and range *)

Lemma APInt_get_inRange numBits val : APInt_inRange (APInt_get numBits val).
Proof.
  unfold APInt_inRange, APInt_get. cbn.
  apply N.mod_lt. apply N.pow_nonzero. discriminate.
Qed.

Lemma parseDigits_inRange Radix Log2Radix IsPowerOf2Radix Str :
  forall R r,
    parseDigits Radix Log2Radix IsPowerOf2Radix Str R = Some r ->
    APInt_inRange R ->
    APInt_inRange r /\ getBitWidth r = getBitWidth R.
Proof.
  induction Str as [| c Str IH]; intros R r; cbn.
  - intros [= <-] HR. split; [exact HR | reflexivity].
  - destruct (CharVal c) as [v |]; [| discriminate].
    destruct (Radix <=? v)%N; [discriminate |].
    intros H _. apply IH in H.
    + destruct H as [H1 H2]. split; [exact H1 |].
      rewrite H2. destruct IsPowerOf2Radix; reflexivity.
    + destruct IsPowerOf2Radix; apply APInt_get_inRange.
Qed.

Lemma getAsInteger_inRange Radix Str R v :
  getAsInteger Radix Str R = (false, v) -> APInt_inRange v.
Proof.
  unfold getAsInteger.
  destruct (if (Radix =? 0)%N then GetAutoSenseRadix Str else (Radix, Str))
    as [Radix' Str'].
  destruct Str' as [| c Str']; [discriminate |].
  destruct (skipLeadingZeroes (String c Str')) as [| c' Str''] eqn:E.
  - intros [= <-]. apply APInt_get_inRange.
  - destruct (parseDigits _ _ _ _ _) as [r |] eqn:P; [| discriminate].
    intros [= <-].
    apply parseDigits_inRange in P; [tauto | apply APInt_get_inRange].
Qed.

Lemma APInt_zextOrTrunc_inRange width a :
  APInt_inRange a ->
  getBitWidth (APInt_zextOrTrunc width a) = width
  /\ APInt_inRange (APInt_zextOrTrunc width a).
Proof.
  intros Ha. unfold APInt_zextOrTrunc.
  destruct (getBitWidth a <? width)%N eqn:E1.
  - apply N.ltb_lt in E1. split; [reflexivity |].
    unfold APInt_inRange, APInt_zext in *. cbn.
    eapply N.lt_le_trans; [exact Ha |].
    apply N.pow_le_mono_r; [discriminate | lia].
  - destruct (width <? getBitWidth a)%N eqn:E2.
    + split; [reflexivity | apply APInt_get_inRange].
    + apply N.ltb_ge in E1, E2. split; [lia | exact Ha].
Qed.

(** X14. Whenever [getValue] returns, the literal has a builtin integer
    type, and the value it returns has exactly the bit width of that type
    and lies below two to that width, however wide the integer was in which
    the spelling was read.  On a literal without a type the query stops on
    its first assertion, and on a literal of any other type on the cast. *)
Theorem IntegerLiteralExpr_getValue_range (Text : string) (Ty : Type_) :
  (forall v, IntegerLiteralExpr_getValue Text Ty = Ok v ->
     exists BitWidth,
       Ty = Some (BuiltinIntegerType BitWidth)
       /\ getBitWidth v = BitWidth
       /\ (getZExtValue v < 2 ^ BitWidth)%N)
  /\ (Ty = None ->
      IntegerLiteralExpr_getValue Text Ty
      = Abort (AssertionFailure "Semantic analysis has not completed"))
  /\ (forall T, Ty = Some T ->
      (forall BitWidth, T <> BuiltinIntegerType BitWidth) ->
      IntegerLiteralExpr_getValue Text Ty = Abort (BadCast "BuiltinIntegerType")).
Proof.
  split; [| split].
  - intros v. unfold IntegerLiteralExpr_getValue.
    destruct Ty as [T |]; cbn; [| discriminate].
    destruct T; cbn; try discriminate.
    destruct (getAsInteger 0 Text (APInt_get BitWidth 0)) as [Err V] eqn:G.
    destruct Err; cbn; [discriminate |].
    apply getAsInteger_inRange in G.
    intros [= <-]. exists BitWidth. split; [reflexivity |].
    destruct (getBitWidth V =? BitWidth)%N eqn:E; cbn.
    + apply N.eqb_eq in E. split; [exact E |]. rewrite <- E. exact G.
    + destruct (APInt_zextOrTrunc_inRange BitWidth V G) as [H1 H2].
      split; [exact H1 |]. unfold APInt_inRange in H2. now rewrite H1 in H2.
  - intros ->. reflexivity.
  - intros T -> HT. unfold IntegerLiteralExpr_getValue. cbn.
    destruct T; try reflexivity. now contradiction (HT BitWidth).
Qed.

Lemma IntegerLiteralExpr_getValue_range_witness :
  exists BitWidth,
    Some (BuiltinIntegerType 8) = Some (BuiltinIntegerType BitWidth)
    /\ getBitWidth (mkAPInt 8 44) = BitWidth
    /\ (getZExtValue (mkAPInt 8 44) < 2 ^ BitWidth)%N.
Proof.
  exact (proj1 (IntegerLiteralExpr_getValue_range "300" (Some (BuiltinIntegerType 8)))
           (mkAPInt 8 44) eq_refl).
Defined.

(** ** The value of a decimal spelling *)

Lemma of_uint_acc_digitsValue d :
  forall a, N.pos (Pos.of_uint_acc d a) = digitsValue d (N.pos a).
Proof.
  induction d; intros a; cbn [Pos.of_uint_acc digitsValue];
    try reflexivity; rewrite IHd; f_equal; lia.
Qed.

Lemma of_uint_digitsValue d : N.of_uint d = digitsValue d 0.
Proof.
  unfold N.of_uint.
  induction d; cbn [Pos.of_uint digitsValue]; try reflexivity;
    try (rewrite of_uint_acc_digitsValue; reflexivity).
  exact IHd.
Qed.

Lemma digitsValue_bound d :
  forall acc, (digitsValue d acc < (acc + 1) * 10 ^ N.of_nat (Decimal.nb_digits d))%N.
Proof.
  induction d; intros acc; cbn [digitsValue Decimal.nb_digits];
    try (rewrite Nat2N.inj_succ, N.pow_succ_r';
         eapply N.lt_le_trans; [apply IHd |];
         rewrite (N.mul_comm 10), N.mul_assoc;
         apply N.mul_le_mono_r; lia).
  cbn. lia.
Qed.

Lemma string_of_uint_length d :
  String.length (NilEmpty.string_of_uint d) = Decimal.nb_digits d.
Proof.
  induction d; cbn; congruence.
Qed.

Lemma accumulate_mod (a k M : N) :
  (((a mod M * 10) mod M + k) mod M = (10 * a + k) mod M)%N.
Proof.
  rewrite N.Div0.mul_mod_idemp_l, N.Div0.add_mod_idemp_l.
  f_equal. lia.
Qed.

Lemma parseDigits_decimal d :
  forall BW acc,
    parseDigits 10 4 false (NilEmpty.string_of_uint d) (mkAPInt BW (acc mod 2 ^ BW))
    = Some (mkAPInt BW (digitsValue d acc mod 2 ^ BW)).
Proof.
  induction d; intros BW acc;
    cbn [NilEmpty.string_of_uint parseDigits digitsValue];
    try reflexivity.
  all: match goal with
       | |- context [CharVal ?c] =>
           let v := eval vm_compute in (CharVal c) in change (CharVal c) with v
       end; cbv iota beta;
       match goal with
       | |- context [(10 <=? ?k)%N] =>
           let b := eval vm_compute in (10 <=? k)%N in change (10 <=? k)%N with b
       end; cbv iota;
       unfold APInt_add, APInt_mul, APInt_get;
       cbn [getBitWidth getZExtValue];
       rewrite accumulate_mod; rewrite ?N.add_0_r; apply IHd.
Qed.

Lemma to_uint_head (n : N) :
  n <> 0%N ->
  exists c s, NilZero.string_of_uint (N.to_uint n) = String c s
              /\ c <> "0"%char
              /\ NilEmpty.string_of_uint (N.to_uint n) = String c s.
Proof.
  intros Hn.
  pose proof (DecimalN.Unsigned.to_of (N.to_uint n)) as Hto.
  rewrite DecimalN.Unsigned.of_to in Hto.
  destruct (N.to_uint n) as [| l | l | l | l | l | l | l | l | l | l] eqn:E;
    try (cbn; do 2 eexists; repeat split; discriminate).
  exfalso. rewrite DecimalFacts.unorm_D0 in Hto.
    unfold Decimal.unorm in Hto.
    destruct (Decimal.nzhead l) as [| u | u | u | u | u | u | u | u | u | u] eqn:Hz;
      try discriminate Hto.
  - injection Hto as ->.
    apply Hn. rewrite <- (DecimalN.Unsigned.of_to n), E. reflexivity.
  - exact (DecimalFacts.nzhead_nonzero l u Hz).
Qed.

Lemma prefix_zero_head (rest : string) (c : ascii) (s : string) :
  c <> "0"%char -> prefix (String "0" rest) (String c s) = false.
Proof.
  intros Hc. cbn [prefix].
  destruct (ascii_dec "0" c) as [E | E]; [now contradiction Hc | reflexivity].
Qed.

Lemma skipLeadingZeroes_head (c : ascii) (s : string) :
  c <> "0"%char -> skipLeadingZeroes (String c s) = String c s.
Proof.
  intros Hc.
  destruct c as [[] [] [] [] [] [] [] []]; try reflexivity.
  now contradiction Hc.
Qed.

Lemma pow10_le_pow16 (k : N) : (10 ^ k <= 2 ^ (4 * k))%N.
Proof.
  rewrite N.pow_mul_r. apply N.pow_le_mono_l. cbn. lia.
Qed.

Lemma getAsInteger_decimal (n : N) (R : APInt) :
  n <> 0%N ->
  getAsInteger 0 (Twine_unsigned n) R
  = (false,
     mkAPInt (N.max (4 * N.of_nat (String.length (Twine_unsigned n))) (getBitWidth R)) n).
Proof.
  intros Hn. destruct (to_uint_head n Hn) as (c & s & H1 & Hc & H2).
  unfold Twine_unsigned, getAsInteger, GetAutoSenseRadix.
  rewrite H1. cbn [N.eqb].
  rewrite !prefix_zero_head by exact Hc.
  rewrite skipLeadingZeroes_head by exact Hc.
  change (N.log2_up 10) with 4%N.
  change (2 ^ 4 =? 10)%N with false.
  set (BW := N.max _ _).
  change (APInt_get BW 0) with (mkAPInt BW (0 mod 2 ^ BW)).
  rewrite <- H2, parseDigits_decimal.
  rewrite <- of_uint_digitsValue, DecimalN.Unsigned.of_to.
  f_equal. f_equal. apply N.mod_small.
  pose proof (digitsValue_bound (N.to_uint n) 0) as Hb.
  rewrite <- of_uint_digitsValue, DecimalN.Unsigned.of_to in Hb.
  rewrite <- string_of_uint_length, H2 in Hb.
  eapply N.lt_le_trans; [exact Hb |].
  rewrite N.mul_1_l.
  eapply N.le_trans; [apply pow10_le_pow16 |].
  apply N.pow_le_mono_r; [discriminate |]. subst BW. lia.
Qed.

Lemma APInt_zextOrTrunc_wide (w BW v : N) :
  (w <= BW)%N -> (v < 2 ^ BW)%N ->
  (if negb (BW =? w)%N then APInt_zextOrTrunc w (mkAPInt BW v) else mkAPInt BW v)
  = mkAPInt w (v mod 2 ^ w).
Proof.
  intros Hle Hv. destruct (BW =? w)%N eqn:E; cbn [negb].
  - apply N.eqb_eq in E. subst BW. now rewrite N.mod_small.
  - apply N.eqb_neq in E. unfold APInt_zextOrTrunc. cbn [getBitWidth].
    replace (BW <? w)%N with false by (symmetry; apply N.ltb_ge; lia).
    replace (w <? BW)%N with true by (symmetry; apply N.ltb_lt; lia).
    reflexivity.
Qed.

(** X15. An integer literal spelled as the decimal digits of [n], with a
    builtin integer type of [w] bits, has the value [n mod 2^w] at width
    [w]: a spelling too large for the type is reduced modulo two to the
    width of the type, and is not rejected. *)
Theorem IntegerLiteralExpr_getValue_decimal (n w : N) :
  IntegerLiteralExpr_getValue (Twine_unsigned n) (Some (BuiltinIntegerType w))
  = Ok (mkAPInt w (n mod 2 ^ w)).
Proof.
  unfold IntegerLiteralExpr_getValue.
  cbn [assert bind deref castTo_BuiltinIntegerType].
  destruct (N.eq_dec n 0) as [-> | Hn].
  - change (getAsInteger 0 (Twine_unsigned 0) (APInt_get w 0))
      with (false, mkAPInt 64 0).
    cbn [negb assert bind getBitWidth].
    rewrite N.Div0.mod_0_l.
    destruct (64 =? w)%N eqn:E; cbn [negb].
    + apply N.eqb_eq in E. now subst w.
    + unfold APInt_zextOrTrunc. cbn [getBitWidth].
      destruct (64 <? w)%N eqn:E1; [reflexivity |].
      destruct (w <? 64)%N eqn:E2.
      * unfold APInt_trunc, APInt_get. cbn [getZExtValue].
        now rewrite N.Div0.mod_0_l.
      * apply N.eqb_neq in E. apply N.ltb_ge in E1, E2. lia.
  - rewrite (getAsInteger_decimal n _ Hn).
    cbn [negb assert bind getBitWidth APInt_get].
    set (BW := N.max _ _).
    rewrite APInt_zextOrTrunc_wide; [reflexivity | subst BW; lia |].
    pose proof (digitsValue_bound (N.to_uint n) 0) as Hb.
    rewrite <- of_uint_digitsValue, DecimalN.Unsigned.of_to in Hb.
    destruct (to_uint_head n Hn) as (c & s & H1 & Hc & H2).
    rewrite <- string_of_uint_length in Hb.
    assert (Hs : NilZero.string_of_uint (N.to_uint n)
                 = NilEmpty.string_of_uint (N.to_uint n)) by congruence.
    eapply N.lt_le_trans; [exact Hb |].
    rewrite N.mul_1_l.
    eapply N.le_trans; [apply pow10_le_pow16 |].
    apply N.pow_le_mono_r; [discriminate |].
    subst BW. unfold Twine_unsigned. rewrite Hs. lia.
Qed.

(** ** The printer *)

(** Induction over expression trees through [children]. *)
Lemma Expr_children_ind (P : Expr -> Prop) :
  (forall E, Forall P (children E) -> P E) -> forall E, P E.
Proof.
  intros H. fix IH 1. intros E. apply H.
  destruct E; cbn [children]; repeat constructor; try apply IH.
  - induction Segments as [| x l IHl]; constructor; [apply IH | exact IHl].
  - induction SubExprs as [| [x |] l IHl]; cbn; [constructor | | exact IHl].
    constructor; [apply IH | exact IHl].
  - destruct Base as [x |]; cbn; repeat constructor. apply IH.
  - induction Elements as [| x l IHl]; constructor; [apply IH | exact IHl].
  - induction Bounds as [| [x |] l IHl]; cbn; [constructor | | exact IHl].
    constructor; [apply IH | exact IHl].
Qed.

Lemma returns_bind {A B : Type} (m : Result A) (k : A -> Result B) :
  returns (bind m k) <-> exists a, m = Ok a /\ returns (k a).
Proof.
  destruct m as [a | f]; cbn.
  - split; [intros H; exists a; split; [reflexivity | exact H] |].
    intros (a' & [= <-] & H). exact H.
  - split; [intros [b H]; discriminate H | intros (a & H & _); discriminate H].
Qed.

Lemma returns_Ok {A : Type} (a : A) : returns (Ok a).
Proof. exists a. reflexivity. Qed.

Lemma printEach_returns {A : Type} (f : A -> Result string) (before after : string)
    (l : list A) :
  returns (printEach f before after l) <-> Forall (fun x => returns (f x)) l.
Proof.
  induction l as [| x l IH]; cbn [printEach].
  - split; [constructor | intros _; apply returns_Ok].
  - rewrite returns_bind. split.
    + intros (s & Hs & H). apply returns_bind in H. destruct H as (r & Hr & _).
      constructor; [exists s; exact Hs | apply IH; exists r; exact Hr].
    + intros H. inversion H as [| ? ? [s Hs] Hl]; subst.
      exists s. split; [exact Hs |].
      apply IH in Hl. destruct Hl as [r Hr]. rewrite Hr. apply returns_Ok.
Qed.

Lemma Forall_flat_map_nonnull (Q : Expr -> Prop) (d : Prop) (l : list (option Expr)) :
  d ->
  (Forall (fun p => match p with Some Sub => Q Sub | None => d end) l
   <-> Forall Q (flat_map nonnull l)).
Proof.
  intros Hd. induction l as [| [x |] l IH]; cbn.
  - split; constructor.
  - split; intros H; inversion H; subst; constructor; tauto.
  - split; intros H; [inversion H; subst; tauto | constructor; tauto].
Qed.

Section PrinterProperties.
Variable OS : Printers.

Lemma visit_returns_step (Indent : nat) (E : Expr) :
  returns (visit OS Indent E)
  <-> match E with
      | IntegerLiteralExpr Val _ Ty => literalPrints Val Ty
      | _ => True
      end
      /\ Forall (fun c => returns (visit OS (Indent + 2) c)) (children E).
Proof.
  destruct E; cbn [visit children];
    try (split; [intros _; split; [exact I | constructor] | intros _; apply returns_Ok]).
  all: try (rewrite returns_bind; split;
            [ intros (s1 & H1 & H); try (apply returns_bind in H; destruct H as (s2 & H2 & _));
              split; [exact I |]; repeat constructor; eexists; eassumption
            | intros (_ & H);
              repeat match goal with
                     | HF : Forall _ (_ :: _) |- _ => inversion HF; subst; clear HF
                     end;
              repeat match goal with
                     | HR : returns (visit _ _ _) |- _ => destruct HR as [? HR]; rewrite HR
                     end;
              eexists; split; [reflexivity |]; cbn [bind]; apply returns_Ok ]).
  - (* IntegerLiteralExpr *)
    rewrite returns_bind. unfold literalPrints. split.
    + intros (s & H & _). split; [| constructor].
      destruct Ty as [T |]; [| now left].
      destruct (isDependentType T) eqn:ED; [right; left; now exists T |].
      right. right.
      destruct (IntegerLiteralExpr_getValue Val (Some T)) as [v | f];
        [now exists v | discriminate H].
    + intros ([-> | [(T & -> & HT) | (v & Hv)]] & _).
      * eexists. split; [reflexivity | apply returns_Ok].
      * rewrite HT. eexists. split; [reflexivity | apply returns_Ok].
      * rewrite Hv. cbn [bind].
        destruct (match Ty with None => true | Some T => isDependentType T end);
          eexists; (split; [reflexivity | apply returns_Ok]).
  - (* InterpolatedStringLiteralExpr *)
    rewrite returns_bind. split.
    + intros (s & H & _). split; [exact I |]. apply (printEach_returns _ "" nl).
      exists s. exact H.
    + intros (_ & H). apply (printEach_returns _ "" nl) in H. destruct H as [s H].
      exists s. split; [exact H | apply returns_Ok].
  - (* OverloadedDeclRefExpr *)
    rewrite returns_bind. split; [intros _; split; [exact I | constructor] |].
    intros _.
    assert (H : returns (printEach (printRec_Decl OS Indent) nl "" Decls)).
    { apply printEach_returns. apply Forall_forall. intros; apply returns_Ok. }
    destruct H as [s H]. exists s. split; [exact H | apply returns_Ok].
  - (* OverloadedMemberRefExpr *)
    rewrite returns_bind. split.
    + intros (s & H & _). split; [exact I |]. repeat constructor. exists s. exact H.
    + intros (_ & H). inversion H as [| ? ? [s Hs] _]; subst.
      exists s. split; [exact Hs |].
      assert (HD : returns (printEach (printRec_Decl OS Indent) nl "" Decls)).
      { apply printEach_returns. apply Forall_forall. intros; apply returns_Ok. }
      destruct HD as [r HD]. rewrite HD. apply returns_Ok.
  - (* TupleExpr *)
    rewrite returns_bind. split.
    + intros (s & H & _). split; [exact I |].
      apply (Forall_flat_map_nonnull _ True _ I).
      assert (HR : returns (printEach
                  (fun p : option Expr =>
                     match p with
                     | Some Sub => visit OS (Indent + 2) Sub
                     | None => Ok (indent (Indent + 2) ++ "<<tuple element default value>>")%string
                     end) nl "" SubExprs)) by (exists s; exact H).
      apply printEach_returns in HR.
      eapply Forall_impl; [| exact HR]. intros [x |] Hx; [exact Hx | exact I].
    + intros (_ & H). apply (Forall_flat_map_nonnull _ True _ I) in H.
      assert (HR : returns (printEach
                  (fun p : option Expr =>
                     match p with
                     | Some Sub => visit OS (Indent + 2) Sub
                     | None => Ok (indent (Indent + 2) ++ "<<tuple element default value>>")%string
                     end) nl "" SubExprs)).
      { apply printEach_returns. eapply Forall_impl; [| exact H].
        intros [x |] Hx; [exact Hx | apply returns_Ok]. }
      destruct HR as [s HR]. exists s. split; [exact HR | apply returns_Ok].
  - (* UnresolvedDotExpr *)
    rewrite returns_bind. destruct Base as [Sub |]; cbn [children nonnull].
    + split.
      * intros (s & H & _). split; [exact I |]. repeat constructor.
        destruct (visit OS (Indent + 2) Sub) as [t | f]; [now exists t | discriminate H].
      * intros (_ & H). inversion H as [| ? ? [t Ht] _]; subst.
        rewrite Ht. eexists. split; [reflexivity | apply returns_Ok].
    + split; [intros _; split; [exact I | constructor] |].
      intros _. eexists. split; [reflexivity | apply returns_Ok].
  - (* SequenceExpr *)
    rewrite returns_bind. split.
    + intros (s & H & _). split; [exact I |]. apply (printEach_returns _ nl "").
      exists s. exact H.
    + intros (_ & H). apply (printEach_returns _ nl "") in H. destruct H as [s H].
      exists s. split; [exact H | apply returns_Ok].
  - (* NewArrayExpr *)
    rewrite returns_bind. split.
    + intros (s & H & _). split; [exact I |].
      apply (Forall_flat_map_nonnull _ True _ I).
      assert (HR : returns (printEach
                  (fun p : option Expr =>
                     match p with
                     | Some Sub => visit OS (Indent + 2) Sub
                     | None => Ok (indent (Indent + 2) ++ "(**NULL EXPRESSION**)")%string
                     end) "" "" Bounds)) by (exists s; exact H).
      apply printEach_returns in HR.
      eapply Forall_impl; [| exact HR]. intros [x |] Hx; [exact Hx | exact I].
    + intros (_ & H). apply (Forall_flat_map_nonnull _ True _ I) in H.
      assert (HR : returns (printEach
                  (fun p : option Expr =>
                     match p with
                     | Some Sub => visit OS (Indent + 2) Sub
                     | None => Ok (indent (Indent + 2) ++ "(**NULL EXPRESSION**)")%string
                     end) "" "" Bounds)).
      { apply printEach_returns. eapply Forall_impl; [| exact H].
        intros [x |] Hx; [exact Hx | apply returns_Ok]. }
      destruct HR as [s HR]. exists s. split; [exact HR | apply returns_Ok].
Qed.
End PrinterProperties.

Section PrinterReturns.
Variable OS : Printers.

(** X16. Printing a tree returns exactly when every integer literal that
    occurs in it has no type yet, has a dependent type, or has a value: the
    printer stops nowhere but in [IntegerLiteralExpr::getValue]. *)
Theorem visit_returns_iff (E : Expr) :
  forall Indent,
    returns (visit OS Indent E)
    <-> forall Val Loc Ty,
          occursIn (IntegerLiteralExpr Val Loc Ty) E -> literalPrints Val Ty.
Proof.
  induction E as [E IH] using Expr_children_ind. intros Indent.
  rewrite visit_returns_step. rewrite Forall_forall in IH. split.
  - intros [Hleaf Hch] Val Loc Ty Hocc.
    inversion Hocc as [Heq | E0 c Hin Hc]; subst.
    + exact Hleaf.
    + rewrite Forall_forall in Hch.
      apply (proj1 (IH c Hin (Indent + 2)) (Hch c Hin) Val Loc Ty Hc).
  - intros H. split.
    + destruct E; try exact I. apply (H Val Loc Ty). constructor.
    + apply Forall_forall. intros c Hin. apply (IH c Hin).
      intros Val Loc Ty Hc. apply (H Val Loc Ty).
      now apply occursIn_child with c.
Qed.
End PrinterReturns.

Lemma visit_returns_iff_witness :
  returns
    (visit Printers0 0 (ParenExpr (loc 1) (DeclRefExpr decl_x (loc 2) Int32Ty) (loc 3) None)).
Proof.
  apply (proj2 (visit_returns_iff Printers0 _ 0)).
  intros Val Loc Ty H.
  inversion H as [| E c Hin Hc]; subst.
  destruct Hin as [<- | []]. inversion Hc as [| E c' Hin' _]; subst. destruct Hin'.
Defined.

Lemma printEach_map_ext {A B : Type} (f : A -> Result string) (g : B -> Result string)
    (h : B -> A) (before after : string) (l : list B) :
  Forall (fun x => f (h x) = g x) l ->
  printEach f before after (map h l) = printEach g before after l.
Proof.
  induction 1 as [| x l Hx Hl IH]; cbn [map printEach]; [reflexivity |].
  now rewrite Hx, IH.
Qed.

Section PrinterLocations.
Variable OS : Printers.

Lemma printEach_eraseLocs_nullable (Indent : nat) (none : string) (before after : string)
    (l : list (option Expr)) :
  Forall (fun c => forall i, visit OS i (eraseLocs c) = visit OS i c) (flat_map nonnull l) ->
  printEach
    (fun p : option Expr =>
       match p with Some Sub => visit OS (Indent + 2) Sub | None => Ok none end)
    before after
    (map (fun p => match p with Some Sub => Some (eraseLocs Sub) | None => None end) l)
  = printEach
      (fun p : option Expr =>
         match p with Some Sub => visit OS (Indent + 2) Sub | None => Ok none end)
      before after l.
Proof.
  intros H. apply printEach_map_ext.
  induction l as [| [x |] l IH]; cbn in H |- *.
  - constructor.
  - inversion H; subst. constructor; [auto | apply IH; assumption].
  - constructor; [reflexivity | apply IH; assumption].
Qed.

Lemma visit_eraseLocs (E : Expr) :
  forall Indent, visit OS Indent (eraseLocs E) = visit OS Indent E.
Proof.
  induction E as [E IH] using Expr_children_ind. intros Indent.
  destruct E; cbn [eraseLocs visit children] in *; try reflexivity;
    repeat match goal with
           | H : Forall _ (_ :: _) |- _ => inversion H; subst; clear H
           end;
    repeat match goal with
           | H : forall i, visit OS i (eraseLocs ?c) = visit OS i ?c |- _ =>
               rewrite !H; clear H
           end;
    try reflexivity.
  - rewrite (printEach_map_ext _ (fun Sub => visit OS (Indent + 2) Sub) eraseLocs);
      [reflexivity |].
    eapply Forall_impl; [| exact IH]. intros c Hc. apply Hc.
  - rewrite (printEach_eraseLocs_nullable Indent _ nl "" SubExprs IH). reflexivity.
  - destruct Base as [Sub |]; [| reflexivity].
    cbn in IH. inversion IH as [| ? ? Hc _]; subst. now rewrite Hc.
  - rewrite (printEach_map_ext _ (fun Sub => visit OS (Indent + 2) Sub) eraseLocs);
      [reflexivity |].
    eapply Forall_impl; [| exact IH]. intros c Hc. apply Hc.
  - rewrite (printEach_eraseLocs_nullable Indent _ "" "" Bounds IH). reflexivity.
  - destruct K; reflexivity.
Qed.

(** X17. The text printed for a tree does not depend on the source
    locations stored in its expression nodes: two trees that differ in
    locations only are printed alike, and stop alike. *)
Theorem print_same_but_locations (E1 E2 : Expr) (Indent : nat) :
  eraseLocs E1 = eraseLocs E2 ->
  print OS E1 Indent = print OS E2 Indent
  /\ dump OS E1 = dump OS E2
  /\ print OS (eraseLocs E1) Indent = print OS E1 Indent.
Proof.
  intros H. unfold dump, print. split; [| split].
  - now rewrite <- (visit_eraseLocs E1), <- (visit_eraseLocs E2), H.
  - now rewrite <- (visit_eraseLocs E1), <- (visit_eraseLocs E2), H.
  - apply visit_eraseLocs.
Qed.
End PrinterLocations.

Lemma print_same_but_locations_witness :
  print Printers0 (ParenExpr (loc 1) (DeclRefExpr decl_x (loc 2) Int32Ty) (loc 3) None) 4
  = print Printers0 (ParenExpr (loc 7) (DeclRefExpr decl_x (loc 8) Int32Ty) (loc 9) None) 4.
Proof.
  exact (proj1 (print_same_but_locations Printers0 _ _ 4 eq_refl)).
Defined.

(** The dump of [(p)] with the reference printers. *)
Example print_example :
  print Printers0 (ParenExpr (loc 1) expr_p (loc 3) PointTy) 0
  = Ok ("(paren_expr type='Point'" ++ nl ++ "  (declref_expr type='Point' decl=p))")%string.
Proof. reflexivity. Qed.

Lemma append_empty_r (s : string) : (s ++ "")%string = s.
Proof.
  induction s as [| c s IH]; cbn; [reflexivity | now rewrite IH].
Qed.

Lemma printElementMapping_join (i : nat) (Mapping : list Z) :
  printElementMapping i Mapping
  = match Mapping with
    | [] => EmptyString
    | _ => ((if (i =? 0)%nat then "" else ", ")
            ++ String.concat ", " (map print_int Mapping))%string
    end.
Proof.
  revert i. induction Mapping as [| x l IH]; intros i; [reflexivity |].
  cbn [printElementMapping map]. rewrite (IH (S i)). f_equal.
  destruct l as [| y l]; cbn [map String.concat Nat.eqb].
  - apply append_empty_r.
  - reflexivity.
Qed.

(** X18. The loop that prints the element mapping of a tuple shuffle
    writes one entry per destination position, in the order of the mapping,
    the entries separated by a comma and a space, with no separator before
    the first or after the last. *)
Theorem printElementMapping_joined (ElementMapping : list Z) :
  printElementMapping 0 ElementMapping
  = String.concat ", " (map print_int ElementMapping).
Proof.
  rewrite printElementMapping_join. destruct ElementMapping; reflexivity.
Qed.

Section PrinterShuffle.
Variable OS : Printers.

Lemma visit_TupleShuffle (Indent : nat) (ElementMapping : list Z)
    (SubExpr : Expr) (Ty : Type_) :
  visit OS Indent (ImplicitConversionExpr (TupleShuffle ElementMapping) SubExpr Ty)
  = (sub <- visit OS (Indent + 2) SubExpr ;;
     Ok (printCommon OS Indent
           (ImplicitConversionExpr (TupleShuffle ElementMapping) SubExpr Ty)
           "tuple_shuffle_expr"
         ++ (" elements=[" ++ String.concat ", " (map print_int ElementMapping) ++ "]")
         ++ nl ++ sub ++ ")")%string).
Proof.
  cbn [visit ImplicitConversionKind_NodeName].
  rewrite printElementMapping_join.
  destruct ElementMapping; reflexivity.
Qed.
End PrinterShuffle.

Example visit_TupleShuffle_example :
  String.concat ", " (map print_int [1; -1; 0]%Z) = "1, -1, 0".
Proof. reflexivity. Qed.

(** ** The value of a hexadecimal spelling *)

Lemma of_hex_uint_acc_hexDigitsValue d :
  forall a, N.pos (Pos.of_hex_uint_acc d a) = hexDigitsValue d (N.pos a).
Proof.
  induction d; intros a; cbn [Pos.of_hex_uint_acc hexDigitsValue];
    try reflexivity; rewrite IHd; f_equal; lia.
Qed.

Lemma of_hex_uint_hexDigitsValue d : N.of_hex_uint d = hexDigitsValue d 0.
Proof.
  unfold N.of_hex_uint.
  induction d; cbn [Pos.of_hex_uint hexDigitsValue]; try reflexivity;
    try (rewrite of_hex_uint_acc_hexDigitsValue; reflexivity).
  exact IHd.
Qed.

Lemma hexDigitsValue_bound d :
  forall acc,
    (hexDigitsValue d acc < (acc + 1) * 16 ^ N.of_nat (Hexadecimal.nb_digits d))%N.
Proof.
  induction d; intros acc; cbn [hexDigitsValue Hexadecimal.nb_digits];
    try (rewrite Nat2N.inj_succ, N.pow_succ_r';
         eapply N.lt_le_trans; [apply IHd |];
         rewrite (N.mul_comm 16), N.mul_assoc;
         apply N.mul_le_mono_r; lia).
  cbn. lia.
Qed.

Lemma hex_string_of_uint_length d :
  String.length (HexadecimalString.NilEmpty.string_of_uint d) = Hexadecimal.nb_digits d.
Proof.
  induction d; cbn; congruence.
Qed.

Lemma shift_or_mod (a v BW : N) :
  (v < 16)%N -> (4 <= BW)%N ->
  (N.lor (N.shiftl (a mod 2 ^ BW) 4 mod 2 ^ BW) v mod 2 ^ BW
   = (16 * a + v) mod 2 ^ BW)%N.
Proof.
  intros Hv HBW.
  set (y := (N.shiftl (a mod 2 ^ BW) 4 mod 2 ^ BW)%N).
  assert (Hland : N.land y v = 0%N).
  { apply N.bits_inj. intros n. rewrite N.land_spec, N.bits_0.
    destruct (N.lt_ge_cases n 4) as [Hn | Hn].
    - subst y. rewrite N.mod_pow2_bits_low by lia.
      rewrite N.shiftl_spec_low by exact Hn. reflexivity.
    - replace (N.testbit v n) with false; [apply andb_false_r |].
      symmetry. rewrite <- (N.mod_small v (2 ^ 4)) by exact Hv.
      apply N.mod_pow2_bits_high. exact Hn. }
  rewrite <- N.lxor_lor by exact Hland.
  rewrite <- N.add_nocarry_lxor by exact Hland.
  subst y. rewrite N.shiftl_mul_pow2.
  rewrite N.Div0.mul_mod_idemp_l, N.Div0.add_mod_idemp_l.
  f_equal. change (2 ^ 4)%N with 16%N. lia.
Qed.

Lemma parseDigits_hex d :
  forall BW acc, (4 <= BW)%N ->
    parseDigits 16 4 true (HexadecimalString.NilEmpty.string_of_uint d)
      (mkAPInt BW (acc mod 2 ^ BW))
    = Some (mkAPInt BW (hexDigitsValue d acc mod 2 ^ BW)).
Proof.
  induction d; intros BW acc HBW;
    cbn [HexadecimalString.NilEmpty.string_of_uint parseDigits hexDigitsValue];
    try reflexivity.
  all: match goal with
       | |- context [CharVal ?c] =>
           let v := eval vm_compute in (CharVal c) in change (CharVal c) with v
       end; cbv iota beta;
       match goal with
       | |- context [(16 <=? ?k)%N] =>
           let b := eval vm_compute in (16 <=? k)%N in change (16 <=? k)%N with b
       end; cbv iota;
       unfold APInt_or, APInt_shl, APInt_get;
       cbn [getBitWidth getZExtValue];
       rewrite shift_or_mod by (try exact HBW; reflexivity);
       rewrite ?N.add_0_r; apply IHd; exact HBW.
Qed.

Lemma to_hex_uint_head (n : N) :
  n <> 0%N ->
  exists c s,
    HexadecimalString.NilZero.string_of_uint (N.to_hex_uint n) = String c s
    /\ c <> "0"%char
    /\ HexadecimalString.NilEmpty.string_of_uint (N.to_hex_uint n) = String c s.
Proof.
  intros Hn.
  pose proof (HexadecimalN.Unsigned.to_of (N.to_hex_uint n)) as Hto.
  rewrite HexadecimalN.Unsigned.of_to in Hto.
  destruct (N.to_hex_uint n) eqn:E;
    try (cbn; do 2 eexists; repeat split; discriminate).
  exfalso. rewrite HexadecimalFacts.unorm_D0 in Hto.
  unfold Hexadecimal.unorm in Hto.
  destruct (Hexadecimal.nzhead u) as [| v | v | v | v | v | v | v | v | v | v
                                     | v | v | v | v | v | v] eqn:Hz;
    try discriminate Hto.
  - injection Hto as ->.
    apply Hn. rewrite <- (HexadecimalN.Unsigned.of_to n), E. reflexivity.
  - exact (HexadecimalFacts.nzhead_nonzero u v Hz).
Qed.

Lemma getAsInteger_hex (n : N) (R : APInt) :
  n <> 0%N ->
  exists len : N,
    (1 <= len)%N /\ (n < 16 ^ len)%N
    /\ getAsInteger 0 (hexSpelling n) R
       = (false, mkAPInt (N.max (4 * len) (getBitWidth R)) n).
Proof.
  intros Hn. destruct (to_hex_uint_head n Hn) as (c & s & H1 & Hc & H2).
  pose proof (hexDigitsValue_bound (N.to_hex_uint n) 0) as Hb.
  rewrite <- of_hex_uint_hexDigitsValue, HexadecimalN.Unsigned.of_to in Hb.
  rewrite <- hex_string_of_uint_length, H2, N.mul_1_l in Hb.
  exists (N.of_nat (String.length (String c s))).
  split; [cbn [String.length]; lia | split; [exact Hb |]].
  unfold hexSpelling, getAsInteger, GetAutoSenseRadix.
  rewrite H1. cbn [N.eqb append prefix substr].
  destruct (ascii_dec "0" "0") as [_ | Hne]; [| now contradiction Hne].
  destruct (ascii_dec "x" "x") as [_ | Hne]; [| now contradiction Hne].
  rewrite skipLeadingZeroes_head by exact Hc.
  change (N.log2_up 16) with 4%N.
  change (2 ^ 4 =? 16)%N with true.
  set (BW := N.max _ _).
  change (APInt_get BW 0) with (mkAPInt BW (0 mod 2 ^ BW)).
  rewrite <- H2, parseDigits_hex by (subst BW; cbn [String.length]; lia).
  rewrite <- of_hex_uint_hexDigitsValue, HexadecimalN.Unsigned.of_to.
  f_equal. f_equal. apply N.mod_small.
  eapply N.lt_le_trans; [exact Hb |].
  change 16%N with (2 ^ 4)%N. rewrite <- N.pow_mul_r.
  apply N.pow_le_mono_r; [discriminate |]. subst BW. lia.
Qed.

(** X19. An integer literal spelled "0x" followed by the hexadecimal digits
    of [n], with a builtin integer type of [w] bits, has the value
    [n mod 2^w] at width [w]. *)
Theorem IntegerLiteralExpr_getValue_hex (n w : N) :
  IntegerLiteralExpr_getValue (hexSpelling n) (Some (BuiltinIntegerType w))
  = Ok (mkAPInt w (n mod 2 ^ w)).
Proof.
  unfold IntegerLiteralExpr_getValue.
  cbn [assert bind deref castTo_BuiltinIntegerType].
  destruct (N.eq_dec n 0) as [-> | Hn].
  - change (getAsInteger 0 (hexSpelling 0) (APInt_get w 0))
      with (false, mkAPInt 64 0).
    cbn [negb assert bind getBitWidth].
    rewrite N.Div0.mod_0_l.
    destruct (64 =? w)%N eqn:E; cbn [negb].
    + apply N.eqb_eq in E. now subst w.
    + unfold APInt_zextOrTrunc. cbn [getBitWidth].
      destruct (64 <? w)%N eqn:E1; [reflexivity |].
      destruct (w <? 64)%N eqn:E2.
      * unfold APInt_trunc, APInt_get. cbn [getZExtValue].
        now rewrite N.Div0.mod_0_l.
      * apply N.eqb_neq in E. apply N.ltb_ge in E1, E2. lia.
  - destruct (getAsInteger_hex n (APInt_get w 0) Hn) as (len & Hlen & Hb & ->).
    cbn [negb assert bind getBitWidth APInt_get].
    rewrite APInt_zextOrTrunc_wide; [reflexivity | lia |].
    eapply N.lt_le_trans; [exact Hb |].
    change 16%N with (2 ^ 4)%N. rewrite <- N.pow_mul_r.
    apply N.pow_le_mono_r; [discriminate | lia].
Qed.

Example hexSpelling_examples :
  hexSpelling 42 = "0x2a" /\ hexSpelling 0 = "0x0" /\ hexSpelling 255 = "0xff".
Proof. repeat split. Qed.
